(** * ewgpal: a palette image of EpicWorldGenerator biomes

    A shallow embedding of [src/ewgpal.py] (Python 2, with
    [from __future__ import division]) and the properties of its loading,
    patch extraction, layout and rendering pipeline.

    Layout of the development:
    - [Py]      the pieces of the Python runtime the script relies on:
                exceptions, [sorted], [max], [//], true division, [str];
    - [OsPath]  [os.path.basename] and [os.path.splitext];
    - [Ewgpal]  the script itself, function by function and loop by loop;
    - [Spec]    the vocabulary in which the properties are stated;
    - [Sample]  a small world directory and concrete library functions;
    - the lemmas and theorems about those definitions. *)

From Stdlib Require Import ZArith QArith PrimFloat Uint63 Ascii.
From stdpp Require Import gmap strings sorting pretty.

Local Open Scope Z_scope.

(* ===================================================================== *)
(** * The Python runtime, as far as the script uses it                    *)
(* ===================================================================== *)

Module Py.

(** The exceptions that the statements of the script can raise. None of
    them is caught by the script ([JSONDecodeError], the only one it
    catches, is part of the loader's input, see [Ewgpal.parsed]). *)
Inductive exn : Type :=
| KeyError (key : string)
| ValueError (msg : string)
| IndexError (msg : string)
| ZeroDivisionError (msg : string).

(** A computation that either returns or raises. *)
Inductive result (A : Type) : Type :=
| Ok (a : A)
| Raise (e : exn).
Global Arguments Ok {A} a.
Global Arguments Raise {A} e.

Global Instance result_ret : MRet result := λ A a, Ok a.
Global Instance result_bind : MBind result := λ A B f m,
  match m with
  | Ok a => f a
  | Raise e => Raise e
  end.

Global Instance result_fmap : FMap result := λ A B f m,
  match m with
  | Ok a => Ok (f a)
  | Raise e => Raise e
  end.

(** A [for] loop over a list whose body may raise: the state is threaded
    from one iteration to the next and the first exception ends the loop. *)
Fixpoint for_ {A S : Type} (l : list A) (body : S → A → result S) (s : S)
  : result S :=
  match l with
  | [] => Ok s
  | x :: l' => s' ← body s x; for_ l' body s'
  end.

(** [d[k]] on a plain [dict]. *)
Definition getitem {A : Type} (d : gmap string A) (k : string) : result A :=
  match d !! k with
  | Some v => Ok v
  | None => Raise (KeyError k)
  end.

(** Comparison of two [str] objects: byte by byte, a proper prefix first. *)
Definition str_le (s1 s2 : string) : Prop := String.leb s1 s2 = true.
Definition str_lt (s1 s2 : string) : Prop := String.ltb s1 s2 = true.

Global Instance str_le_dec s1 s2 : Decision (str_le s1 s2).
Proof. unfold str_le. apply _. Defined.

(** [sorted(l)] on a list of strings. The script only sorts the keys of
    dictionaries, which are pairwise distinct, so that the stability of
    Python's sort plays no role. *)
Definition sorted (l : list string) : list string := merge_sort str_le l.

(** [d.keys()], [d.values()] and [d.iteritems()]: the order in which a
    Python 2 dictionary enumerates its entries is unspecified; the model
    enumerates them as [map_to_list] does, the three views consistently. *)
Definition iteritems {A : Type} (d : gmap string A) : list (string * A) :=
  map_to_list d.
Definition keys {A : Type} (d : gmap string A) : list string :=
  (iteritems d).*1.
Definition values {A : Type} (d : gmap string A) : list A :=
  (iteritems d).*2.

(** [max(l)]: raises on the empty sequence. *)
Definition max_ (l : list Z) : result Z :=
  match l with
  | [] => Raise (ValueError "max() arg is an empty sequence")
  | x :: l' => Ok (foldl Z.max x l')
  end.

(** [a // b] on integers: floor division, as [Z.div]. *)
Definition floordiv (a b : Z) : result Z :=
  if decide (b = 0)
  then Raise (ZeroDivisionError "integer division or modulo by zero")
  else Ok (a / b).

(** [len(l)] *)
Definition len {A : Type} (l : list A) : Z := Z.of_nat (length l).

(** [range(n)] *)
Definition range (n : Z) : list Z := seqZ 0 n.

(** [str(n)] on an integer. *)
Definition str (n : Z) : string := pretty n.

(** Conversion of an integer to a binary64 float. It is exact below
    [2^53] in absolute value, which covers pixel sizes and colour
    components; the embedding does not follow CPython beyond [2^63]. *)
Definition float_of_int (z : Z) : float :=
  if 0 <=? z
  then PrimFloat.of_uint63 (Uint63.of_Z z)
  else PrimFloat.opp (PrimFloat.of_uint63 (Uint63.of_Z (- z))).

(** [a / b] under [from __future__ import division], on two integers and
    on a float and an integer. The script only divides by the literals
    [2] and [1000], so that no [ZeroDivisionError] is modelled here. *)
Definition truediv (a b : Z) : float :=
  PrimFloat.div (float_of_int a) (float_of_int b).
Definition truediv_float (x : float) (b : Z) : float :=
  PrimFloat.div x (float_of_int b).

(** [n + x] and [n * x] with [n] an integer and [x] a float. *)
Definition add_int_float (n : Z) (x : float) : float :=
  PrimFloat.add (float_of_int n) x.
Definition mul_int_float (n : Z) (x : float) : float :=
  PrimFloat.mul (float_of_int n) x.

(** [x < n] with [x] a float and [n] a (small) integer. *)
Definition float_lt_int (x : float) (n : Z) : bool :=
  PrimFloat.ltb x (float_of_int n).

(** [s.startswith(c)] for a one-character prefix [c]. *)
Definition startswith (s : string) (c : ascii) : bool :=
  match s with
  | String a _ => Ascii.eqb a c
  | EmptyString => false
  end.

End Py.

Import Py.

(* ===================================================================== *)
(** * [os.path], POSIX flavour                                            *)
(* ===================================================================== *)

Module OsPath.

(** [s.rfind(c)]: the index of the last occurrence of [c], or [-1]. *)
Fixpoint rfind_from (c : ascii) (s : string) (i last : Z) : Z :=
  match s with
  | EmptyString => last
  | String a s' => rfind_from c s' (i + 1) (if Ascii.eqb a c then i else last)
  end.
Definition rfind (c : ascii) (s : string) : Z := rfind_from c s 0 (-1).

(** [s[:i]] and [s[i:]] for [0 <= i]. *)
Definition slice_to (i : Z) (s : string) : string :=
  String.substring 0 (Z.to_nat i) s.
Definition slice_from (i : Z) (s : string) : string :=
  String.substring (Z.to_nat i) (String.length s - Z.to_nat i) s.

(** [posixpath.basename]:
    [i = p.rfind('/') + 1; return p[i:]] *)
Definition basename (p : string) : string :=
  let i := rfind "/" p + 1 in
  slice_from i p.

(** The [while] loop of [genericpath._splitext], which skips the leading
    dots of the file name: [true] when a character other than the dot is
    met at an index in [[filenameIndex, dotIndex)]. *)
Fixpoint has_non_dot (p : string) (filenameIndex : nat) (count : nat) : bool :=
  match count with
  | O => false
  | S count' =>
      match String.get filenameIndex p with
      | Some a =>
          if Ascii.eqb a "." then has_non_dot p (S filenameIndex) count'
          else true
      | None => false
      end
  end.

(** [posixpath.splitext], that is [genericpath._splitext(p, '/', None, '.')]. *)
Definition splitext (p : string) : string * string :=
  let sepIndex := rfind "/" p in
  let dotIndex := rfind "." p in
  if decide (sepIndex < dotIndex) then
    let filenameIndex := sepIndex + 1 in
    if has_non_dot p (Z.to_nat filenameIndex) (Z.to_nat (dotIndex - filenameIndex))
    then (slice_to dotIndex p, slice_from dotIndex p)
    else (p, EmptyString)
  else (p, EmptyString).

End OsPath.

(* ===================================================================== *)
(** * The script                                                          *)
(* ===================================================================== *)

Module Ewgpal.

(** ** Input: the biome files *)

(** The dictionary that [simplejson.load] returns for a biome file, as far
    as the script reads it: the three keys ['enabled'], ['biomeType'] and
    ['biomeColors'], each of which may be absent ([None] is an absent key).
    Their values have the types of EpicWorldGenerator's biome files: a
    boolean, a string and a list of strings; strings are byte strings. Files
    that hold another JSON value than such an object are not part of the
    embedding. *)
Record biome : Type := {
  enabled : option bool;
  biomeType : option string;
  biomeColors : option (list string)
}.

(** What [simplejson.load] does on a file: it raises [JSONDecodeError]
    (with its message and position) or returns the dictionary. The [except]
    clause of line 148 names the class through [boto.utils]; a [KeyError]
    is not an instance of it, nor of [ValueError], its base class. *)
Inductive parsed : Type :=
| JSONDecodeError (msg : string) (lineno colno : Z)
| Loaded (b : biome).

(** One entry of [glob.glob(world_dir + '/settings/biomes/*/*.json')]. *)
Record biome_file : Type := {
  biomeFileName : string;
  contents : parsed
}.

(** [biome[key]] for one of the three keys. *)
Definition getfield {A : Type} (key : string) (field : option A) : result A :=
  match field with
  | Some v => Ok v
  | None => Raise (KeyError key)
  end.

(** ** [maxSize], [colorCode] and [contrastingColor] *)

(** [maxSize] (lines 61-74), whose arguments are the sizes: the tuple of
    the arguments as a list. *)
Definition maxSize (sizes : list (Z * Z)) : result (Z * Z) :=
  maxWidth ← max_ ((λ s, s.1) <$> sizes);
  maxHeight ← max_ ((λ s, s.2) <$> sizes);
  mret (maxWidth, maxHeight).

Definition colorCode (hex : string) : string :=
  if startswith hex "#" then hex else "#" +:+ hex.

Definition contrastingColor (rgb : Z * Z * Z) : string :=
  let '(r, g, b) := rgb in
  let brightness := truediv (r * 299 + g * 587 + b * 114) 1000 in
  if float_lt_int brightness 123 then "#ffffff" else "#000000".

(** ** The loading loop (lines 139-149) *)

(** The line that the [except JSONDecodeError] clause prints with [eprint]. *)
Definition json_error_line (biomeFileName msg : string) (lineno colno : Z)
  : string :=
  "JSON error: " +:+ biomeFileName +:+ ": line " +:+ str lineno
    +:+ ", column " +:+ str colno +:+ ": " +:+ msg.

(** [biomesByType[biomeType][baseName] = biome] on a [defaultdict(dict)]. *)
Definition setitem2 (biomeType baseName : string) (b : biome)
    (biomesByType : gmap string (gmap string biome))
  : gmap string (gmap string biome) :=
  <[biomeType := <[baseName := b]> (default ∅ (biomesByType !! biomeType))]>
    biomesByType.

(** The body of the [try] once the file is parsed. *)
Definition load_biome (baseName : string) (b : biome)
    (biomesByType : gmap string (gmap string biome))
  : result (gmap string (gmap string biome)) :=
  e ← getfield "enabled" (enabled b);
  let enabledStatus := if e : bool then "Enabled" else "Disabled" in
  t ← getfield "biomeType" (biomeType b);
  mret (setitem2 t baseName b biomesByType).

(** The loop over the files. [err] is what [eprint] has written so far, one
    entry for each call; it is what remains of the run when a statement
    raises. *)
Fixpoint load (files : list biome_file) (err : list string)
    (biomesByType : gmap string (gmap string biome))
  : list string * result (gmap string (gmap string biome)) :=
  match files with
  | [] => (err, Ok biomesByType)
  | file :: files' =>
      let baseName :=
        (OsPath.splitext (OsPath.basename (biomeFileName file))).1 in
      match contents file with
      | JSONDecodeError msg lineno colno =>
          load files'
            (err ++ [json_error_line (biomeFileName file) msg lineno colno])
            biomesByType
      | Loaded b =>
          match load_biome baseName b biomesByType with
          | Ok biomesByType' => load files' err biomesByType'
          | Raise e => (err, Raise e)
          end
      end
  end.

(** ** The extraction loop (lines 152-157) *)

Record patch : Type := {
  biomeName : string;
  biomeColor : string
}.

(** [biomePatches[biomeType].append(p)] on a [defaultdict(list)]: the entry
    of a type comes into being with its first patch. *)
Definition append_patch (t : string) (p : patch)
    (biomePatches : gmap string (list patch)) : gmap string (list patch) :=
  <[t := default [] (biomePatches !! t) ++ [p]]> biomePatches.

Definition extract_biome (biomes : gmap string biome) (t : string)
    (biomePatches : gmap string (list patch)) (name : string)
  : result (gmap string (list patch)) :=
  b ← getitem biomes name;
  colors ← getfield "biomeColors" (biomeColors b);
  mret (foldl
          (λ acc biomeColor,
             append_patch t
               {| biomeName := name; biomeColor := colorCode biomeColor |} acc)
          biomePatches colors).

Definition extract_type (biomesByType : gmap string (gmap string biome))
    (biomePatches : gmap string (list patch)) (t : string)
  : result (gmap string (list patch)) :=
  let biomes := default ∅ (biomesByType !! t) in
  for_ (sorted (keys biomes)) (extract_biome biomes t) biomePatches.

Definition extract (biomesByType : gmap string (gmap string biome))
  : result (gmap string (list patch)) :=
  for_ (sorted (keys biomesByType)) (extract_type biomesByType) ∅.

(** ** Layout and rendering (lines 168-245) *)

Inductive ink : Type :=
| Named (name : string)
| RGB (rgb : Z * Z * Z).

(** The calls on [ImageDraw.Draw(img)], in the order they are made. *)
Inductive draw_op : Type :=
| rectangle (xy : Z * Z * Z * Z) (fill : ink) (outline : string)
| text (xy : float * float) (s : string) (fill : string).

(** [Image.new(mode, size, color)] and what has been drawn on it. *)
Record image : Type := {
  mode : string;
  size : Z * Z;
  color : string;
  drawn : list draw_op
}.

(** The variables of the layout computation *)
Record layout : Type := {
  maxPatches : Z;
  wrapColumns : Z;
  biomeTypeRows : gmap string Z;
  rows : Z;
  columns : Z;
  patchPadding : Z;
  firstColumnWidth : Z;
  patchWidth : Z;
  patchHeight : Z;
  imageWidth : Z;
  imageHeight : Z
}.

Definition patchTextRows : Z := 7.

(** [patches[i]] on a list, with Python's negative indices. *)
Definition getindex (patches : list patch) (i : Z) : result patch :=
  let j := if decide (i < 0) then i + len patches else i in
  match (if decide (0 ≤ j) then patches !! Z.to_nat j else None) with
  | Some p => Ok p
  | None => Raise (IndexError "list index out of range")
  end.

(** ['{}  {}  {}'.format(rgb[0], rgb[1], rgb[2])] *)
Definition format_rgb (rgb : Z * Z * Z) : string :=
  let '(r, g, b) := rgb in
  str r +:+ "  " +:+ str g +:+ "  " +:+ str b.

Section Pipeline.

(** What the script obtains from libraries outside of the repository:
    - [ceil_pow_third n] is [int(ceil(pow(n, 1/3.0)))], evaluated by the
      C library in binary64 arithmetic;
    - [getsize] is [font.getsize] of [ImageFont.truetype("arial", size=16)];
    - [textsize] is [draw.textsize(_, font=font)];
    - [getrgb] is [ImageColor.getrgb], which raises [ValueError] on a
      string that it does not know as a colour. *)
Variable ceil_pow_third : Z → Z.
Variable getsize : string → Z * Z.
Variable textsize : string → Z * Z.
Variable getrgb : string → result (Z * Z * Z).

(** Lines 173-178: the rows that each biome type takes. The state of the
    loop is [biomeTypeRows] and the running [rows]. *)
Definition count_row (wrapColumns : Z) (st : gmap string Z * Z)
    (item : string * list patch) : result (gmap string Z * Z) :=
  wrappedRows ← floordiv (wrapColumns - 1 + len item.2) wrapColumns;
  mret (<[item.1 := wrappedRows]> st.1, st.2 + wrappedRows).

Definition count_rows (wrapColumns : Z)
    (biomePatches : gmap string (list patch)) : result (gmap string Z * Z) :=
  for_ (iteritems biomePatches) (count_row wrapColumns) (∅, 0).

(** Lines 192-198: the size of a patch, from the names of the biomes. *)
Definition measure_patch (patchPadding : Z) (acc : Z * Z) (p : patch)
  : Z * Z :=
  let '(patchWidth, patchHeight) := acc in
  let textSize := getsize (biomeName p) in
  (Z.max (textSize.1 + 2 * patchPadding) patchWidth,
   Z.max (patchTextRows * textSize.2 + 2 * patchPadding) patchHeight).

Definition measure_patches (patchPadding : Z)
    (biomePatches : gmap string (list patch)) : Z * Z :=
  foldl (λ acc patches, foldl (measure_patch patchPadding) acc patches)
    (0, 0) (values biomePatches).

(** Lines 169-202. *)
Definition plan (biomePatches : gmap string (list patch)) : result layout :=
  maxPatches ← max_ (len <$> values biomePatches);
  let wrapColumns := 3 * ceil_pow_third maxPatches in
  counted ← count_rows wrapColumns biomePatches;
  let columns := Z.min maxPatches wrapColumns in
  let patchPadding := (getsize "   ").1 in
  widest ← max_ ((λ t, (getsize t).1) <$> keys biomePatches);
  let firstColumnWidth := 2 * patchPadding + widest in
  let patchSize := measure_patches patchPadding biomePatches in
  mret {| maxPatches := maxPatches;
          wrapColumns := wrapColumns;
          biomeTypeRows := counted.1;
          rows := counted.2;
          columns := columns;
          patchPadding := patchPadding;
          firstColumnWidth := firstColumnWidth;
          patchWidth := patchSize.1;
          patchHeight := patchSize.2;
          imageWidth := 1 + firstColumnWidth + patchSize.1 * columns;
          imageHeight := 1 + patchSize.2 * counted.2 |}.

(** Lines 239-243: the three lines of text of a patch; [textY] moves
    down from one line to the next. *)
Fixpoint draw_lines (L : layout) (c : Z) (rgb : Z * Z * Z) (lineGap : float)
    (lines : list string) (textY : float) : list draw_op :=
  match lines with
  | [] => []
  | line :: lines' =>
      let '(lineW, lineH) := textsize line in
      text (add_int_float
              (firstColumnWidth L + (c `mod` columns L) * patchWidth L)
              (truediv (patchWidth L - lineW) 2),
            textY)
           line (contrastingColor rgb)
      :: draw_lines L c rgb lineGap lines'
           (PrimFloat.add textY (add_int_float lineH lineGap))
  end.

(** Lines 223-243: one patch, in column [c] of the image row [row]. *)
Definition draw_patch (L : layout) (row c : Z) (p : patch)
  : result (list draw_op) :=
  let colorName := biomeColor p in
  rgb ← getrgb colorName;
  let lines := [biomeName p; colorName; format_rgb rgb] in
  let line0Size := textsize (biomeName p) in
  let line0Height := line0Size.2 in
  let lineGap := truediv line0Height 2 in
  let totalTextHeight :=
    add_int_float (3 * line0Height) (mul_int_float 2 lineGap) in
  let textY :=
    add_int_float (row * patchHeight L)
      (truediv_float
         (PrimFloat.sub (float_of_int (patchHeight L)) totalTextHeight) 2) in
  mret (rectangle (firstColumnWidth L + c * patchWidth L,
                   row * patchHeight L,
                   firstColumnWidth L + (c + 1) * patchWidth L,
                   (row + 1) * patchHeight L) (RGB rgb) "#000000"
        :: draw_lines L c rgb lineGap lines textY).

(** Lines 218-243: the patches of one image row; the loop over the
    columns is left ([break]) at the first index past the last patch. *)
Fixpoint draw_cells (L : layout) (row r : Z) (patches : list patch)
    (cs : list Z) (ops : list draw_op) : result (list draw_op) :=
  match cs with
  | [] => Ok ops
  | c :: cs' =>
      let patchIndex := r * columns L + c in
      if decide (len patches ≤ patchIndex) then Ok ops
      else
        p ← getindex patches patchIndex;
        cell ← draw_patch L row c p;
        draw_cells L row r patches cs' (ops ++ cell)
  end.

(** Lines 213-215: the label of an image row. *)
Definition draw_label (L : layout) (row : Z) (t : string) : list draw_op :=
  let textSize := getsize t in
  [ rectangle (0, row * patchHeight L,
               firstColumnWidth L, (row + 1) * patchHeight L)
      (Named "#404040") "#000000";
    text (truediv (firstColumnWidth L - textSize.1) 2,
          add_int_float (row * patchHeight L)
            (truediv (patchHeight L - textSize.2) 2))
      t "#ffffff" ].

(** Lines 211-245: one image row of a biome type. The state is the
    running [row] and what has been drawn. *)
Definition draw_row (L : layout) (patches : list patch) (t : string)
    (st : Z * list draw_op) (r : Z) : result (Z * list draw_op) :=
  ops ← draw_cells L st.1 r patches (range (columns L))
           (st.2 ++ draw_label L st.1 t);
  mret (st.1 + 1, ops).

(** Lines 209-245: the image rows of one biome type. *)
Definition draw_type (L : layout) (biomePatches : gmap string (list patch))
    (st : Z * list draw_op) (t : string) : result (Z * list draw_op) :=
  let patches := default [] (biomePatches !! t) in
  typeRows ← getitem (biomeTypeRows L) t;
  for_ (range typeRows) (draw_row L patches t) st.

(** Lines 203-245. *)
Definition render (L : layout) (biomePatches : gmap string (list patch))
  : result image :=
  st ← for_ (sorted (keys biomePatches)) (draw_type L biomePatches) (0, []);
  mret {| mode := "RGB";
          size := (imageWidth L, imageHeight L);
          color := "#404040";
          drawn := st.2 |}.

(** ** The whole run *)

(** What a run leaves: the lines that [eprint] wrote, and either the
    image handed to [img.save] or the exception that ended the run. *)
Record outcome : Type := {
  err_stream : list string;
  saved : result image
}.

Definition pipeline (biomesByType : gmap string (gmap string biome))
  : result image :=
  biomePatches ← extract biomesByType;
  L ← plan biomePatches;
  render L biomePatches.

Definition main (files : list biome_file) : outcome :=
  let loaded := load files [] ∅ in
  {| err_stream := loaded.1;
     saved := loaded.2 ≫= pipeline |}.

(** The exit status of the interpreter: [1] after an uncaught exception. *)
Definition exit_status (o : outcome) : Z :=
  match saved o with
  | Ok _ => 0
  | Raise _ => 1
  end.

End Pipeline.

End Ewgpal.

Import Ewgpal.

(* ===================================================================== *)
(** * Vocabulary of the properties                                        *)
(* ===================================================================== *)

Module Spec.

(** The luminance of a colour, as a rational number. *)
Definition luminance (rgb : Z * Z * Z) : Q :=
  let '(r, g, b) := rgb in
  (r * 299 + g * 587 + b * 114) # 1000.

(** The comparison that [contrastingColor] makes on floats, and its
    agreement with the comparison of integers at one numerator. *)
Definition dark (n : Z) : bool := float_lt_int (truediv n 1000) 123.
Definition dark_agrees (n : Z) : bool := Bool.eqb (dark n) (n <? 123000).
Definition check_step (st : Z * bool) : Z * bool :=
  (st.1 + 1, st.2 && dark_agrees st.1).

(** ** Vocabulary of the loader *)

(** The lines that the malformed files of a list contribute to the error
    stream, in the order of the files. *)
Definition json_errors (files : list biome_file) : list string :=
  omap (λ file,
          match contents file with
          | JSONDecodeError msg lineno colno =>
              Some (json_error_line (biomeFileName file) msg lineno colno)
          | Loaded _ => None
          end) files.

(** A record and a file with the value of ['enabled'] forgotten (its
    presence is kept). *)
Definition erase_enabled (b : biome) : biome :=
  {| enabled := (λ _, true) <$> enabled b;
     biomeType := biomeType b;
     biomeColors := biomeColors b |}.

Definition erase_file (file : biome_file) : biome_file :=
  {| biomeFileName := biomeFileName file;
     contents := match contents file with
                 | Loaded b => Loaded (erase_enabled b)
                 | c => c
                 end |}.

(** The grouping with the values of ['enabled'] forgotten. *)
Definition erase_biomes (biomes : gmap string biome) : gmap string biome :=
  erase_enabled <$> biomes.

Definition erase_grouping (biomesByType : gmap string (gmap string biome))
  : gmap string (gmap string biome) :=
  erase_biomes <$> biomesByType.

(** ** Vocabulary of the extractor *)

(** The patches of a type so far: none when the type has no entry. *)
Definition patches_at (biomePatches : gmap string (list patch)) (t : string)
  : list patch :=
  default [] (biomePatches !! t).

(** The colours of a biome of a type, in the order of its file. *)
Definition colors_of (biomes : gmap string biome) (name : string)
  : list string :=
  default [] (biomes !! name ≫= biomeColors).

Definition patches_of_biome (biomes : gmap string biome) (name : string)
  : list patch :=
  (λ c, {| biomeName := name; biomeColor := colorCode c |})
    <$> colors_of biomes name.

(** The patches of a type: biome after biome in the order of the names. *)
Definition patches_of_type (biomes : gmap string biome) : list patch :=
  concat (patches_of_biome biomes <$> sorted (keys biomes)).

(** The pattern [#[0-9A-Fa-f]{6}] and a bare [[0-9A-Fa-f]{6}]. *)
Definition is_hex_digit (a : ascii) : bool :=
  let n := N_of_ascii a in
  ((48 <=? n) && (n <=? 57) || (65 <=? n) && (n <=? 70)
   || (97 <=? n) && (n <=? 102))%N.

Fixpoint all_hex (s : string) : bool :=
  match s with
  | EmptyString => true
  | String a s' => is_hex_digit a && all_hex s'
  end.

Definition is_hex6 (s : string) : bool :=
  Nat.eqb (String.length s) 6 && all_hex s.

Definition matches_hex_color (s : string) : bool :=
  match s with
  | String a s' => Ascii.eqb a "#" && is_hex6 s'
  | EmptyString => false
  end.

Definition valid_source (s : string) : bool :=
  is_hex6 s || matches_hex_color s.

(** ** Vocabulary of the layout *)

(** The ceiling of [a / b], and a sum of integers. *)
Definition ceil_div (a b : Z) : Z := - ((- a) / b).

Definition sumZ (l : list Z) : Z := foldr Z.add 0 l.

(** A loop body on a state [(row, ops)] that only appends to [ops]. *)
Definition appending {A X : Type}
    (body : Z * list X → A → result (Z * list X)) : Prop :=
  ∀ row ops x,
    body (row, ops) x = (λ st, (st.1, ops ++ st.2)) <$> body (row, []) x.

(** ** Vocabulary of the further properties *)

(** A computation that returns. *)
Definition is_Ok {A : Type} (r : result A) : Prop := ∃ a, r = Ok a.

(** A string without one leading ['#']. *)
Definition strip_hash (s : string) : string :=
  match s with
  | String a s' => if Ascii.eqb a "#" then s' else s
  | EmptyString => s
  end.

(** Whether a character occurs in a string. *)
Fixpoint has_char (c : ascii) (s : string) : bool :=
  match s with
  | EmptyString => false
  | String a s' => Ascii.eqb a c || has_char c s'
  end.

(** The base name under which line 142 files a biome. *)
Definition baseName (file : biome_file) : string :=
  (OsPath.splitext (OsPath.basename (biomeFileName file))).1.


(** [biomesByType[t][name]], when both keys are there. *)
Definition lookup2 (biomesByType : gmap string (gmap string biome))
    (t name : string) : option biome :=
  biomesByType !! t ≫= λ biomes, biomes !! name.


(** The invariant of [biomesByType]: no type is empty, and every record is
    filed under its own type and under the base name of a file of [files]
    that holds it. *)
Definition grouped_from (files : list biome_file)
    (biomesByType : gmap string (gmap string biome)) : Prop :=
  ∀ t biomes, biomesByType !! t = Some biomes →
    biomes ≠ ∅ ∧
    ∀ name b, biomes !! name = Some b →
      biomeType b = Some t ∧ is_Some (enabled b) ∧
      ∃ file, file ∈ files ∧ contents file = Loaded b ∧ baseName file = name.

(** All the patches, type after type in the order of the renderer. *)
Definition all_patches (biomePatches : gmap string (list patch)) : list patch :=
  concat (patches_at biomePatches <$> sorted (keys biomePatches)).

(** What can be seen of a drawing: the fills of the patch cells, the upper
    edges of the label cells, and whether the rectangle of an operation is a
    cell of an image row: its label cell or the cell of one of the columns. *)
Definition patch_inks (ops : list draw_op) : list (Z * Z * Z) :=
  omap (λ op, match op with
              | rectangle _ (RGB rgb) _ => Some rgb
              | _ => None
              end) ops.

Definition label_tops (ops : list draw_op) : list Z :=
  omap (λ op, match op with
              | rectangle xy (Named _) _ => Some xy.1.1.2
              | _ => None
              end) ops.

Definition in_band (L : layout) (row : Z) (op : draw_op) : Prop :=
  match op with
  | rectangle xy _ _ =>
      xy.1.1.2 = row * patchHeight L ∧ xy.2 = (row + 1) * patchHeight L ∧
      ((xy.1.1.1 = 0 ∧ xy.1.2 = firstColumnWidth L) ∨
       ∃ c, 0 ≤ c < columns L ∧
         xy.1.1.1 = firstColumnWidth L + c * patchWidth L ∧
         xy.1.2 = firstColumnWidth L + (c + 1) * patchWidth L)
  | text _ _ _ => True
  end.


(** The rows that the layout gives to a type. *)
Definition rows_of (L : layout) (t : string) : Z :=
  default 0 (biomeTypeRows L !! t).

(** A drawing without its coordinates: the fill of every rectangle and the
    string and colour of every text, in the order of the calls. *)
Inductive view : Type :=
| Cell (fill : ink)
| Caption (s fill : string).

Definition view_of (op : draw_op) : view :=
  match op with
  | rectangle _ fill _ => Cell fill
  | text _ s fill => Caption s fill
  end.

(** What an image row is to show: the grey label cell with the name of
    the type in white, and after it the patches of the row, each a cell in
    its colour with the name of the biome, the colour code and the three
    components of the colour in the contrasting colour. Row [r] of a type
    holds its patches from index [r * columns] on, at most [columns]. *)
Definition label_view (t : string) : list view :=
  [Cell (Named "#404040"); Caption t "#ffffff"].

Definition patch_view (getrgb : string → result (Z * Z * Z)) (p : patch)
  : list view :=
  match getrgb (biomeColor p) with
  | Ok rgb =>
      [Cell (RGB rgb);
       Caption (biomeName p) (contrastingColor rgb);
       Caption (biomeColor p) (contrastingColor rgb);
       Caption (format_rgb rgb) (contrastingColor rgb)]
  | Raise _ => []
  end.

Definition row_view (getrgb : string → result (Z * Z * Z)) (columns : nat)
    (t : string) (patches : list patch) (r : nat) : list view :=
  label_view t ++
  concat (patch_view getrgb <$> take columns (drop (r * columns) patches)).

Definition type_view (getrgb : string → result (Z * Z * Z)) (L : layout)
    (biomePatches : gmap string (list patch)) (t : string) : list view :=
  concat (row_view getrgb (Z.to_nat (columns L)) t (patches_at biomePatches t)
            <$> seq 0 (Z.to_nat (rows_of L t))).

Definition image_view (getrgb : string → result (Z * Z * Z)) (L : layout)
    (biomePatches : gmap string (list patch)) : list view :=
  concat (type_view getrgb L biomePatches <$> sorted (keys biomePatches)).

End Spec.

Import Spec.

(* ===================================================================== *)
(** * Sample inputs                                                       *)
(* ===================================================================== *)

Module Sample.

(** The exact ceiling of the cube root, by search from below: the value of
    [int(ceil(pow(n, 1/3.0)))] wherever the float computation is accurate. *)
Fixpoint cbrt_search (fuel : nat) (n k : Z) : Z :=
  match fuel with
  | O => k
  | S fuel' => if decide (n ≤ k * k * k) then k else cbrt_search fuel' n (k + 1)
  end.

Definition ceil_cbrt (n : Z) : Z := cbrt_search (Z.to_nat n) n 0.

(** A font in which every character is 9 pixels wide and 18 high. *)
Definition getsize (s : string) : Z * Z := (9 * Z.of_nat (String.length s), 18).

(** [ImageColor.getrgb] on the [#rrggbb] form. *)
Definition hex_value (a : ascii) : Z :=
  let n := Z.of_N (N_of_ascii a) in
  if decide (n ≤ 57) then n - 48
  else if decide (n ≤ 70) then n - 55
  else n - 87.

Definition getrgb (s : string) : result (Z * Z * Z) :=
  match s with
  | String _ (String r1 (String r0 (String g1 (String g0
      (String b1 (String b0 EmptyString)))))) =>
      if matches_hex_color s
      then Ok (16 * hex_value r1 + hex_value r0,
               16 * hex_value g1 + hex_value g0,
               16 * hex_value b1 + hex_value b0)
      else Raise (ValueError ("unknown color specifier: " +:+ s))
  | _ => Raise (ValueError ("unknown color specifier: " +:+ s))
  end.

(** Two forest biomes with one colour each, a desert biome with three, a
    file that does not parse, and records that lack a key. *)
Definition oak : biome_file :=
  {| biomeFileName := "world/settings/biomes/forests/Oak.json";
     contents := Loaded {| enabled := Some true;
                           biomeType := Some "Forest";
                           biomeColors := Some ["2e8b57"] |} |}.

Definition birch : biome_file :=
  {| biomeFileName := "world/settings/biomes/forests/Birch.json";
     contents := Loaded {| enabled := Some false;
                           biomeType := Some "Forest";
                           biomeColors := Some ["#9acd32"] |} |}.

Definition birch_enabled : biome_file :=
  {| biomeFileName := "world/settings/biomes/forests/Birch.json";
     contents := Loaded {| enabled := Some true;
                           biomeType := Some "Forest";
                           biomeColors := Some ["#9acd32"] |} |}.

Definition dune : biome_file :=
  {| biomeFileName := "world/settings/biomes/deserts/Dune.json";
     contents := Loaded {| enabled := Some true;
                           biomeType := Some "Desert";
                           biomeColors := Some ["EDC9AF"; "#c2b280"; "f4a460"] |} |}.

Definition broken : biome_file :=
  {| biomeFileName := "world/settings/biomes/deserts/Mesa.json";
     contents := JSONDecodeError "Expecting value" 3 7 |}.

Definition untyped : biome :=
  {| enabled := Some true; biomeType := None; biomeColors := Some ["808080"] |}.

Definition no_type : biome_file :=
  {| biomeFileName := "world/settings/biomes/misc/Void.json";
     contents := Loaded untyped |}.

Definition unflagged : biome :=
  {| enabled := None; biomeType := Some "Misc"; biomeColors := Some ["808080"] |}.

Definition no_enabled : biome_file :=
  {| biomeFileName := "world/settings/biomes/misc/Limbo.json";
     contents := Loaded unflagged |}.

Definition named_color : biome_file :=
  {| biomeFileName := "world/settings/biomes/misc/Lava.json";
     contents := Loaded {| enabled := Some true;
                           biomeType := Some "Misc";
                           biomeColors := Some ["red"] |} |}.

(** The grouping that loading [oak], [birch] and [dune] produces, the
    patches extracted from it, and a grouping with a colour name. *)
Definition grouping : gmap string (gmap string biome) :=
  {[ "Forest" :=
       {[ "Oak" := {| enabled := Some true; biomeType := Some "Forest";
                      biomeColors := Some ["2e8b57"] |};
          "Birch" := {| enabled := Some false; biomeType := Some "Forest";
                        biomeColors := Some ["#9acd32"] |} ]};
     "Desert" :=
       {[ "Dune" := {| enabled := Some true; biomeType := Some "Desert";
                       biomeColors := Some ["EDC9AF"; "#c2b280"; "f4a460"] |} ]} ]}.

Definition patches : gmap string (list patch) :=
  {[ "Forest" := [ {| biomeName := "Birch"; biomeColor := "#9acd32" |};
                   {| biomeName := "Oak"; biomeColor := "#2e8b57" |} ];
     "Desert" := [ {| biomeName := "Dune"; biomeColor := "#EDC9AF" |};
                   {| biomeName := "Dune"; biomeColor := "#c2b280" |};
                   {| biomeName := "Dune"; biomeColor := "#f4a460" |} ] ]}.

Definition lava_grouping : gmap string (gmap string biome) :=
  {[ "Misc" :=
       {[ "Lava" := {| enabled := Some true; biomeType := Some "Misc";
                       biomeColors := Some ["red"] |} ]} ]}.

(** The layout and the image of [patches] with the sample font. *)
Definition sample_layout : layout :=
  Eval vm_compute in
  match plan ceil_cbrt getsize patches as r
        return match r with Ok _ => layout | Raise _ => unit end with
  | Ok L => L
  | Raise _ => tt
  end.

Definition sample_image : image :=
  Eval vm_compute in
  match render getsize getsize getrgb sample_layout patches as r
        return match r with Ok _ => image | Raise _ => unit end with
  | Ok img => img
  | Raise _ => tt
  end.

End Sample.


(* ===================================================================== *)
(** * The order on strings and [sorted]                                   *)
(* ===================================================================== *)

Section StrOrder.

Lemma ascii_compare_refl a : Ascii.compare a a = Eq.
Proof. unfold Ascii.compare. apply N.compare_refl. Qed.

Lemma ascii_compare_eq a b : Ascii.compare a b = Eq → a = b.
Proof. apply Ascii.compare_eq_iff. Qed.

Lemma ascii_compare_trans a b c o :
  Ascii.compare a b = o → Ascii.compare b c = o → Ascii.compare a c = o.
Proof.
  unfold Ascii.compare. intros H1 H2. destruct o.
  - rewrite N.compare_eq_iff in *. congruence.
  - rewrite N.compare_lt_iff in *. lia.
  - rewrite N.compare_gt_iff in *. lia.
Qed.

Lemma string_compare_refl s : String.compare s s = Eq.
Proof. induction s as [|a s IH]; simpl; [done|]. by rewrite ascii_compare_refl. Qed.

Lemma string_compare_trans o s1 : ∀ s2 s3,
  String.compare s1 s2 = o → String.compare s2 s3 = o →
  String.compare s1 s3 = o.
Proof.
  induction s1 as [|a s1 IH]; intros [|b s2] [|c s3]; simpl; try congruence.
  destruct (Ascii.compare a b) eqn:Hab, (Ascii.compare b c) eqn:Hbc;
    try congruence.
  - apply ascii_compare_eq in Hab, Hbc. subst.
    rewrite ascii_compare_refl. apply IH.
  - apply ascii_compare_eq in Hab. subst. rewrite Hbc. congruence.
  - apply ascii_compare_eq in Hab. subst. rewrite Hbc. congruence.
  - apply ascii_compare_eq in Hbc. subst. rewrite Hab. congruence.
  - rewrite (ascii_compare_trans _ _ _ _ Hab Hbc). congruence.
  - apply ascii_compare_eq in Hbc. subst. rewrite Hab. congruence.
  - rewrite (ascii_compare_trans _ _ _ _ Hab Hbc). congruence.
Qed.

Lemma str_le_alt s1 s2 : str_le s1 s2 ↔ str_lt s1 s2 ∨ s1 = s2.
Proof.
  unfold str_le, str_lt, String.leb, String.ltb.
  destruct (String.compare s1 s2) eqn:Hc.
  - apply String.compare_eq_iff in Hc. naive_solver.
  - naive_solver.
  - split; [done|]. intros [?| ->]; [done|].
    by rewrite string_compare_refl in Hc.
Qed.

Lemma str_lt_irrefl s : ¬ str_lt s s.
Proof. unfold str_lt, String.ltb. by rewrite string_compare_refl. Qed.

Lemma str_lt_trans s1 s2 s3 : str_lt s1 s2 → str_lt s2 s3 → str_lt s1 s3.
Proof.
  unfold str_lt, String.ltb. intros H1 H2.
  destruct (String.compare s1 s2) eqn:H12; try done.
  destruct (String.compare s2 s3) eqn:H23; try done.
  by rewrite (string_compare_trans _ _ _ _ H12 H23).
Qed.

Global Instance str_le_refl : Reflexive str_le.
Proof. intros s. apply str_le_alt. by right. Qed.

Global Instance str_le_trans : Transitive str_le.
Proof.
  intros s1 s2 s3. rewrite !str_le_alt.
  intros [H1| ->] [H2| ->]; eauto using str_lt_trans.
Qed.

Global Instance str_le_antisym : AntiSymm (=) str_le.
Proof. intros s1 s2. apply String.leb_antisym. Qed.

Global Instance str_le_total : Total str_le.
Proof. intros s1 s2. apply String.leb_total. Qed.

Lemma sorted_perm l : sorted l ≡ₚ l.
Proof. apply merge_sort_Permutation. Qed.

Lemma sorted_sorted l : StronglySorted str_le (sorted l).
Proof. apply StronglySorted_merge_sort; apply _. Qed.

(** Whatever the order in which a dictionary enumerates its keys,
    [sorted] returns the same list. *)
Lemma sorted_unique l1 l2 : l1 ≡ₚ l2 → sorted l1 = sorted l2.
Proof.
  intros Hp. apply (StronglySorted_unique str_le); try apply sorted_sorted.
  by rewrite !sorted_perm.
Qed.

Lemma elem_of_sorted l k : k ∈ sorted l ↔ k ∈ l.
Proof. by rewrite sorted_perm. Qed.

Lemma StronglySorted_strict (l : list string) :
  NoDup l → StronglySorted str_le l → StronglySorted str_lt l.
Proof.
  induction 2 as [|x l Hs IH Hall]; [constructor|].
  apply NoDup_cons in H as [Hx Hl].
  constructor; [by apply IH|].
  rewrite Forall_forall in Hall |- *. intros y Hy.
  destruct (proj1 (str_le_alt x y) (Hall y Hy)) as [?| ->]; done.
Qed.

Context {A : Type}.
Implicit Types m : gmap string A.

Lemma NoDup_keys m : NoDup (keys m).
Proof. apply NoDup_fst_map_to_list. Qed.

Lemma elem_of_keys m k : k ∈ keys m ↔ is_Some (m !! k).
Proof.
  unfold keys, iteritems. rewrite list_elem_of_fmap. split.
  - intros [[k' v] [-> Hin]]. apply elem_of_map_to_list in Hin. by exists v.
  - intros [v Hv]. exists (k, v). by rewrite elem_of_map_to_list.
Qed.

Lemma elem_of_sorted_keys m k : k ∈ sorted (keys m) ↔ is_Some (m !! k).
Proof. by rewrite elem_of_sorted, elem_of_keys. Qed.

Lemma NoDup_sorted_keys m : NoDup (sorted (keys m)).
Proof. rewrite sorted_perm. apply NoDup_keys. Qed.

(** [sorted(d.keys())] is the strictly increasing enumeration of the keys. *)
Lemma sorted_keys_increasing m : StronglySorted str_lt (sorted (keys m)).
Proof.
  apply StronglySorted_strict; [apply NoDup_sorted_keys|apply sorted_sorted].
Qed.

End StrOrder.

(* ===================================================================== *)
(** * [colorCode]                                                         *)
(* ===================================================================== *)

Lemma colorCode_prefixed s : colorCode (String "#" s) = String "#" s.
Proof. reflexivity. Qed.

Lemma colorCode_bare s : startswith s "#" = false → colorCode s = String "#" s.
Proof. unfold colorCode. by intros ->. Qed.

Lemma startswith_hash s : startswith s "#" = true ↔ ∃ s', s = String "#" s'.
Proof.
  destruct s as [|a s]; simpl.
  - split; [done|]. by intros [? ?].
  - rewrite Ascii.eqb_eq. split; [intros ->; eauto|]. by intros [? [= -> _]].
Qed.

(** C8. [colorCode] returns a string that already starts with ['#']
    unchanged, prepends exactly one ['#'] to any other string (so that the
    result is one character longer and starts with ['#']), and is
    idempotent on every string. *)
Theorem colorCode_idempotent (s : string) :
  (∀ s', colorCode (String "#" s') = String "#" s') ∧
  (if startswith s "#" then colorCode s = s
   else colorCode s = String "#" s ∧
        String.length (colorCode s) = S (String.length s)) ∧
  colorCode (colorCode s) = colorCode s.
Proof.
  split; [apply colorCode_prefixed|]. split.
  - destruct (startswith s "#") eqn:Hs.
    + apply startswith_hash in Hs as [s' ->]. apply colorCode_prefixed.
    + by rewrite (colorCode_bare _ Hs).
  - destruct (startswith s "#") eqn:Hs.
    + apply startswith_hash in Hs as [s' ->]. by rewrite !colorCode_prefixed.
    + by rewrite (colorCode_bare _ Hs), colorCode_prefixed.
Qed.

(* ===================================================================== *)
(** * [contrastingColor]                                                  *)
(* ===================================================================== *)

Lemma check_step_iter p : ∀ st,
  (Pos.iter check_step st p).1 = st.1 + Z.pos p ∧
  ((Pos.iter check_step st p).2 = true →
   st.2 = true ∧ ∀ k, st.1 ≤ k < st.1 + Z.pos p → dark_agrees k = true).
Proof.
  induction p as [|p IH] using Pos.peano_ind; intros st.
  - simpl. split; [done|]. intros [? ?]%andb_true_iff. split; [done|].
    intros k ?. by replace k with (st.1) by lia.
  - rewrite Pos.iter_succ. destruct (IH st) as [IH1 IH2]. simpl.
    split; [lia|]. intros [Hb Hk]%andb_true_iff.
    destruct (IH2 Hb) as [? Hbelow]. split; [done|].
    intros k ?. destruct (decide (k < st.1 + Z.pos p)); [apply Hbelow; lia|].
    replace k with ((Pos.iter check_step st p).1) by lia. done.
Qed.

(** The float comparison of [contrastingColor] decides [n < 123000] on
    every numerator that colour components in [[0, 255]] can produce: the
    255001 quotients are evaluated in binary64 arithmetic. *)
Lemma dark_table n : 0 ≤ n ≤ 255000 → dark n = (n <? 123000).
Proof.
  intros Hn.
  assert (Pos.iter check_step (0, true) 255001 = (255001, true)) as Hall
    by (vm_compute; reflexivity).
  destruct (check_step_iter 255001 (0, true)) as [_ Hchk].
  rewrite Hall in Hchk. destruct (Hchk eq_refl) as [_ Hk].
  specialize (Hk n). simpl in Hk. unfold dark_agrees in Hk.
  apply Bool.eqb_prop. apply Hk. lia.
Qed.

Lemma contrastingColor_dark r g b :
  contrastingColor (r, g, b) =
  if dark (r * 299 + g * 587 + b * 114) then "#ffffff" else "#000000".
Proof. reflexivity. Qed.

Lemma luminance_lt r g b :
  (luminance (r, g, b) < 123)%Q ↔ r * 299 + g * 587 + b * 114 < 123000.
Proof. unfold luminance, Qlt. simpl. lia. Qed.

Lemma luminance_eq r g b :
  (luminance (r, g, b) == 123)%Q ↔ r * 299 + g * 587 + b * 114 = 123000.
Proof. unfold luminance, Qeq. simpl. lia. Qed.

(** C7. On components in [[0, 255]], [contrastingColor] is white exactly
    when the luminance [(R*299 + G*587 + B*114) / 1000] is below 123 and
    black otherwise; a luminance of exactly 123 gives black, black gives
    white and white gives black. *)
Theorem contrastingColor_threshold (r g b : Z) :
  0 ≤ r ≤ 255 → 0 ≤ g ≤ 255 → 0 ≤ b ≤ 255 →
  (contrastingColor (r, g, b) = "#ffffff" ↔ (luminance (r, g, b) < 123)%Q) ∧
  (contrastingColor (r, g, b) = "#000000" ↔ ¬ (luminance (r, g, b) < 123)%Q) ∧
  ((luminance (r, g, b) == 123)%Q → contrastingColor (r, g, b) = "#000000") ∧
  contrastingColor (0, 0, 0) = "#ffffff" ∧
  contrastingColor (255, 255, 255) = "#000000".
Proof.
  intros Hr Hg Hb.
  rewrite luminance_lt, luminance_eq, contrastingColor_dark.
  rewrite dark_table by lia.
  destruct (Z.ltb_spec (r * 299 + g * 587 + b * 114) 123000);
    repeat split; try done; try lia.
Qed.

Lemma contrastingColor_threshold_witness :
  (contrastingColor (123, 123, 123) = "#ffffff" ↔
     (luminance (123, 123, 123)%Z < 123)%Q) ∧
  (contrastingColor (123, 123, 123) = "#000000" ↔
     ¬ (luminance (123, 123, 123)%Z < 123)%Q) ∧
  ((luminance (123, 123, 123)%Z == 123)%Q →
     contrastingColor (123, 123, 123) = "#000000") ∧
  contrastingColor (0, 0, 0) = "#ffffff" ∧
  contrastingColor (255, 255, 255) = "#000000".
Proof. apply (contrastingColor_threshold 123 123 123); lia. Defined.

(* ===================================================================== *)
(** * Loops                                                               *)
(* ===================================================================== *)

Section Loops.

Context {A S : Type}.
Implicit Types (l : list A) (body : S → A → result S).

Lemma for_app l1 l2 body s :
  for_ (l1 ++ l2) body s = for_ l1 body s ≫= for_ l2 body.
Proof.
  revert s. induction l1 as [|x l1 IH]; intros s; simpl; [done|].
  destruct (body s x); simpl; [apply IH|done].
Qed.

Lemma for_ext l body1 body2 s :
  (∀ s' x, x ∈ l → body1 s' x = body2 s' x) →
  for_ l body1 s = for_ l body2 s.
Proof.
  revert s. induction l as [|x l IH]; intros s Hext; simpl; [done|].
  rewrite Hext by left. destruct (body2 s x); simpl; [|done].
  apply IH. intros s' y Hy. apply Hext. by right.
Qed.

(** A property of the state that every iteration keeps holds at the end. *)
Lemma for_invariant (P : S → Prop) l body s s' :
  (∀ s1 x s2, x ∈ l → P s1 → body s1 x = Ok s2 → P s2) →
  P s → for_ l body s = Ok s' → P s'.
Proof.
  revert s. induction l as [|x l IH]; intros s Hbody Hs; simpl.
  - by intros [= <-].
  - destruct (body s x) as [s1|] eqn:Hx; simpl; [|done].
    apply IH; [|eapply Hbody; [left|done..]].
    intros s2 y s3 Hy. apply Hbody. by right.
Qed.

End Loops.

(* ===================================================================== *)
(** * The loader                                                          *)
(* ===================================================================== *)

Section Loader.

Implicit Types (files : list biome_file) (err : list string).
Implicit Types (m : gmap string (gmap string biome)).

Lemma load_app files1 files2 err m :
  load (files1 ++ files2) err m =
  match load files1 err m with
  | (err', Ok m') => load files2 err' m'
  | (err', Raise e) => (err', Raise e)
  end.
Proof.
  revert err m. induction files1 as [|file files1 IH]; intros err m; simpl.
  - done.
  - destruct (contents file) as [msg lineno colno|b]; [apply IH|].
    destruct (load_biome _ b m); [apply IH|done].
Qed.

(** What has been printed before the loop stays in front. *)
Lemma load_err files err m :
  load files err m = (err ++ (load files [] m).1, (load files [] m).2).
Proof.
  revert err m. induction files as [|file files IH]; intros err m; simpl.
  - by rewrite app_nil_r.
  - destruct (contents file) as [msg lineno colno|b].
    + rewrite (IH (err ++ _)), (IH [_]). simpl. by rewrite <-app_assoc.
    + destruct (load_biome _ b m); simpl; [apply IH|by rewrite app_nil_r].
Qed.

(** A loop that reaches its end has printed one line for each malformed
    file, and nothing else. *)
Lemma load_ok_err files err m err' m' :
  load files err m = (err', Ok m') → err' = err ++ json_errors files.
Proof.
  revert err m. induction files as [|file files IH]; intros err m; simpl.
  - intros [= <- _]. by rewrite app_nil_r.
  - unfold json_errors. simpl. destruct (contents file) as [msg lineno colno|b].
    + intros ->%IH. by rewrite <-app_assoc.
    + destruct (load_biome _ b m); [apply IH|done].
Qed.

Lemma load_biome_no_enabled baseName b m :
  enabled b = None → load_biome baseName b m = Raise (KeyError "enabled").
Proof. unfold load_biome. by intros ->. Qed.

Lemma load_biome_no_biomeType baseName b m :
  biomeType b = None →
  load_biome baseName b m =
  Raise (KeyError (match enabled b with
                   | Some _ => "biomeType"
                   | None => "enabled"
                   end)).
Proof. unfold load_biome. intros ->. by destruct (enabled b). Qed.

(** The loop ends at the first record whose lookup raises: the files after
    it are not opened and what was printed so far remains. *)
Lemma load_raise files1 files2 name b err m e :
  load files1 [] ∅ = (err, Ok m) →
  (∀ baseName, load_biome baseName b m = Raise e) →
  load (files1 ++ {| biomeFileName := name; contents := Loaded b |} :: files2)
    [] ∅ = (err, Raise e).
Proof. intros H1 Hb. rewrite load_app, H1. simpl. by rewrite Hb. Qed.

(** A malformed file adds its line and leaves the dictionary as it is. *)
Lemma load_malformed files1 files2 name msg lineno colno err m :
  load files1 [] ∅ = (err, Ok m) →
  load (files1 ++ {| biomeFileName := name;
                     contents := JSONDecodeError msg lineno colno |} :: files2)
    [] ∅ =
  (err ++ json_error_line name msg lineno colno :: (load files2 [] m).1,
   (load files2 [] m).2) ∧
  load (files1 ++ files2) [] ∅ =
  (err ++ (load files2 [] m).1, (load files2 [] m).2).
Proof.
  intros H1. rewrite !load_app, H1. simpl. split.
  - rewrite load_err. by rewrite <-app_assoc.
  - apply load_err.
Qed.

(** Forgetting the values of ['enabled'] commutes with loading. *)
Lemma setitem2_erase t baseName b m :
  setitem2 t baseName (erase_enabled b) (erase_grouping m) =
  erase_grouping (setitem2 t baseName b m).
Proof.
  unfold setitem2, erase_grouping. rewrite fmap_insert, lookup_fmap. f_equal.
  unfold erase_biomes.
  destruct (m !! t); simpl; [by rewrite fmap_insert|].
  by rewrite fmap_insert, fmap_empty.
Qed.

Lemma load_biome_erase baseName b m :
  load_biome baseName (erase_enabled b) (erase_grouping m) =
  erase_grouping <$> load_biome baseName b m.
Proof.
  unfold load_biome. destruct b as [[e|] [t|] cs]; simpl; try done.
  by rewrite <-setitem2_erase.
Qed.

Lemma load_erase files err m :
  load (erase_file <$> files) err (erase_grouping m) =
  ((load files err m).1, erase_grouping <$> (load files err m).2).
Proof.
  revert err m. induction files as [|file files IH]; intros err m; simpl.
  - done.
  - destruct (contents file) as [msg lineno colno|b]; [apply IH|].
    rewrite load_biome_erase. destruct (load_biome _ b m); simpl; [apply IH|done].
Qed.

End Loader.

(* ===================================================================== *)
(** * The extractor                                                       *)
(* ===================================================================== *)

Section Extractor.

Implicit Types (bp : gmap string (list patch)) (biomes : gmap string biome).
Implicit Types (m : gmap string (gmap string biome)).

Lemma sorted_nil : sorted [] = [].
Proof. reflexivity. Qed.

Lemma keys_empty {A} : keys (∅ : gmap string A) = [].
Proof. unfold keys, iteritems. by rewrite map_to_list_empty. Qed.

Lemma keys_fmap {A B} (f : A → B) (d : gmap string A) :
  keys (f <$> d) ≡ₚ keys d.
Proof.
  unfold keys, iteritems. rewrite map_to_list_fmap, <-list_fmap_compose.
  enough ((fst ∘ prod_map id f) <$> map_to_list d = (map_to_list d).*1)
    as -> by done.
  apply list_fmap_ext. by intros ? [? ?].
Qed.

Lemma patches_of_type_empty : patches_of_type ∅ = [].
Proof. unfold patches_of_type. by rewrite (keys_empty (A:=biome)). Qed.

Lemma patches_at_append t p bp :
  patches_at (append_patch t p bp) t = patches_at bp t ++ [p].
Proof. unfold patches_at, append_patch. by rewrite lookup_insert_eq. Qed.

Lemma lookup_append_ne t t' p bp :
  t ≠ t' → append_patch t p bp !! t' = bp !! t'.
Proof. intros. unfold append_patch. by rewrite lookup_insert_ne. Qed.

Lemma append_patches (mk : string → patch) t cs : ∀ bp,
  patches_at (foldl (λ acc c, append_patch t (mk c) acc) bp cs) t =
    patches_at bp t ++ (mk <$> cs) ∧
  ∀ t', t ≠ t' →
    foldl (λ acc c, append_patch t (mk c) acc) bp cs !! t' = bp !! t'.
Proof.
  induction cs as [|c cs IH]; intros bp; simpl.
  - by rewrite app_nil_r.
  - destruct (IH (append_patch t (mk c) bp)) as [IH1 IH2]. split.
    + by rewrite IH1, patches_at_append, <-app_assoc.
    + intros t' Ht. by rewrite IH2, lookup_append_ne.
Qed.

Lemma extract_biome_ok biomes t bp name bp' :
  extract_biome biomes t bp name = Ok bp' →
  patches_at bp' t = patches_at bp t ++ patches_of_biome biomes name ∧
  ∀ t', t ≠ t' → bp' !! t' = bp !! t'.
Proof.
  unfold extract_biome, getitem, patches_of_biome, colors_of.
  destruct (biomes !! name) as [b|]; simpl; [|done].
  destruct (biomeColors b) as [cs|]; simpl; [|done].
  intros [= <-]. apply append_patches.
Qed.

Lemma extract_names_ok biomes t names : ∀ bp bp',
  for_ names (extract_biome biomes t) bp = Ok bp' →
  patches_at bp' t =
    patches_at bp t ++ concat (patches_of_biome biomes <$> names) ∧
  ∀ t', t ≠ t' → bp' !! t' = bp !! t'.
Proof.
  induction names as [|name names IH]; intros bp bp'; simpl.
  - intros [= <-]. by rewrite app_nil_r.
  - destruct (extract_biome biomes t bp name) as [bp1|] eqn:H1; simpl; [|done].
    intros [IHa IHb]%IH. apply extract_biome_ok in H1 as [H1a H1b]. split.
    + by rewrite IHa, H1a, <-app_assoc.
    + intros t' Ht. by rewrite IHb, H1b.
Qed.

Lemma extract_type_ok m bp t bp' :
  extract_type m bp t = Ok bp' →
  patches_at bp' t =
    patches_at bp t ++ patches_of_type (default ∅ (m !! t)) ∧
  ∀ t', t ≠ t' → bp' !! t' = bp !! t'.
Proof. apply extract_names_ok. Qed.

Lemma extract_types_ok m ts : ∀ bp bp',
  NoDup ts →
  for_ ts (extract_type m) bp = Ok bp' →
  (∀ t, t ∈ ts →
     patches_at bp' t =
       patches_at bp t ++ patches_of_type (default ∅ (m !! t))) ∧
  (∀ t, t ∉ ts → bp' !! t = bp !! t).
Proof.
  induction ts as [|t0 ts IH]; intros bp bp' Hnd; simpl.
  - intros [= <-]. split; [by intros ? ?%elem_of_nil|done].
  - apply NoDup_cons in Hnd as [Ht0 Hnd].
    destruct (extract_type m bp t0) as [bp1|] eqn:H1; simpl; [|done].
    intros [IHa IHb]%IH; [|done].
    apply extract_type_ok in H1 as [H1a H1b]. split.
    + intros t [->|Ht]%elem_of_cons.
      * unfold patches_at at 1. by rewrite (IHb _ Ht0), <-H1a.
      * rewrite (IHa _ Ht). unfold patches_at at 1.
        rewrite H1b; [done|]. by intros ->.
    + intros t [Hne Ht]%not_elem_of_cons. by rewrite IHb, H1b.
Qed.

(** The result of the extraction, type by type. *)
Lemma extract_patches_at m bp t :
  extract m = Ok bp → patches_at bp t = patches_of_type (default ∅ (m !! t)).
Proof.
  intros [Ha Hb]%extract_types_ok; [|apply NoDup_sorted_keys].
  destruct (decide (t ∈ sorted (keys m))) as [Ht|Ht].
  - by rewrite (Ha _ Ht).
  - unfold patches_at. rewrite (Hb _ Ht), lookup_empty. simpl.
    rewrite elem_of_sorted_keys, <-eq_None_not_Some in Ht.
    rewrite Ht. simpl. by rewrite patches_of_type_empty.
Qed.

(** No type is left with an empty list: the entry of a type is made by the
    first [append]. *)
Lemma append_patches_nonempty (mk : string → patch) t cs : ∀ bp,
  map_Forall (λ _ ps, ps ≠ []) bp →
  map_Forall (λ _ ps, ps ≠ [])
    (foldl (λ acc c, append_patch t (mk c) acc) bp cs).
Proof.
  induction cs as [|c cs IH]; intros bp Hbp; simpl; [done|].
  apply IH. unfold append_patch. apply map_Forall_insert_2; [|done].
  by destruct (default [] (bp !! t)).
Qed.

Lemma extract_nonempty m bp :
  extract m = Ok bp → map_Forall (λ _ ps, ps ≠ []) bp.
Proof.
  apply for_invariant; [|apply map_Forall_empty].
  intros bp1 t bp2 _. apply for_invariant.
  intros bp3 name bp4 _ H3. unfold extract_biome.
  destruct (getitem _ name) as [b|]; simpl; [|done].
  destruct (getfield _ (biomeColors b)) as [cs|]; simpl; [|done].
  intros [= <-]. by apply append_patches_nonempty.
Qed.

(** The exact entry of a type in [biomePatches]. *)
Lemma extract_lookup m bp t :
  extract m = Ok bp →
  bp !! t = match patches_of_type (default ∅ (m !! t)) with
            | [] => None
            | ps => Some ps
            end.
Proof.
  intros Hex. rewrite <-(extract_patches_at m bp t Hex). unfold patches_at.
  destruct (bp !! t) as [ps|] eqn:Ht; simpl; [|done].
  apply extract_nonempty in Hex. specialize (Hex t ps Ht). simpl in Hex.
  by destruct ps.
Qed.

(** Every patch is a colour of a biome of its type, normalised. *)
Lemma elem_of_patches_of_type biomes p :
  p ∈ patches_of_type biomes →
  is_Some (biomes !! biomeName p) ∧
  ∃ c, c ∈ colors_of biomes (biomeName p) ∧ biomeColor p = colorCode c.
Proof.
  unfold patches_of_type. rewrite list_elem_of_In, in_concat.
  setoid_rewrite <-list_elem_of_In.
  intros (ps & (name & -> & Hname)%list_elem_of_fmap & Hp).
  unfold patches_of_biome in Hp.
  apply list_elem_of_fmap in Hp as (c & -> & Hc). simpl.
  split; [by apply elem_of_sorted_keys in Hname|eauto].
Qed.

Lemma startswith_colorCode c : startswith (colorCode c) "#" = true.
Proof. unfold colorCode. by destruct (startswith c "#") eqn:Hc. Qed.

(** A ['#'] is not a hex digit, so that a string of six hex digits has to be
    prefixed and a string that matches the pattern is left as it is. *)
Lemma matches_colorCode c : matches_hex_color (colorCode c) = valid_source c.
Proof.
  unfold colorCode, valid_source. destruct c as [|a c]; simpl; [done|].
  destruct (Ascii.eqb a "#") eqn:Ha; simpl.
  - apply Ascii.eqb_eq in Ha as ->. simpl.
    unfold is_hex6 at 2. simpl. by rewrite andb_false_r.
  - by rewrite orb_false_r.
Qed.

(** The extraction reads the types, the names and the colours only. *)
Lemma extract_erase m : extract (erase_grouping m) = extract m.
Proof.
  unfold extract, erase_grouping.
  rewrite (sorted_unique _ _ (keys_fmap _ m)).
  apply for_ext. intros bp t _. unfold extract_type.
  rewrite lookup_fmap.
  replace (default ∅ (erase_biomes <$> m !! t))
    with (erase_biomes (default ∅ (m !! t)))
    by (destruct (m !! t); [done|apply fmap_empty]).
  unfold erase_biomes at 1.
  rewrite (sorted_unique _ _ (keys_fmap _ _)).
  apply for_ext. intros bp' name _. unfold extract_biome, getitem, erase_biomes.
  rewrite lookup_fmap. by destruct (default ∅ (m !! t) !! name).
Qed.

End Extractor.

(* ===================================================================== *)
(** * Arithmetic of the layout                                            *)
(* ===================================================================== *)

Section Arithmetic.

(** [ceil_div a b] is the least [k] with [a ≤ k * b]. *)
Lemma ceil_div_spec a b :
  0 < b → (ceil_div a b - 1) * b < a ≤ ceil_div a b * b.
Proof.
  intros Hb. unfold ceil_div.
  pose proof (Z.div_mod (- a) b) as Hdm.
  pose proof (Z.mod_pos_bound (- a) b Hb). nia.
Qed.

Lemma ceil_div_unique a b k : 0 < b → (k - 1) * b < a ≤ k * b → ceil_div a b = k.
Proof. intros Hb Hk. pose proof (ceil_div_spec a b Hb). nia. Qed.

(** The rounding up of line 176 is the ceiling of the quotient. *)
Lemma wrapped_rows_ceil n w : 0 < w → (w - 1 + n) / w = ceil_div n w.
Proof.
  intros Hw. symmetry. apply ceil_div_unique; [done|].
  pose proof (Z.div_mod (w - 1 + n) w) as Hdm.
  pose proof (Z.mod_pos_bound (w - 1 + n) w Hw). nia.
Qed.

(** Dividing by [wrapColumns] or by [columns] gives the same rows: when the
    two differ, every type fits in one row. *)
Lemma wrapped_rows_columns n M w :
  1 ≤ n ≤ M → 0 < w → (w - 1 + n) / w = ceil_div n (Z.min M w).
Proof.
  intros Hn Hw. destruct (Z.min_spec M w) as [[Hlt ->]|[Hle ->]].
  - rewrite (ceil_div_unique n M 1) by lia.
    symmetry. apply Z.div_unique with (n - 1); lia.
  - by apply wrapped_rows_ceil.
Qed.

Lemma foldl_max l : ∀ x,
  (foldl Z.max x l = x ∨ foldl Z.max x l ∈ l) ∧
  x ≤ foldl Z.max x l ∧ ∀ y, y ∈ l → y ≤ foldl Z.max x l.
Proof.
  induction l as [|z l IH]; intros x; simpl.
  - split; [by left|]. split; [done|]. by intros ? ?%elem_of_nil.
  - destruct (IH (Z.max x z)) as (Hin & Hle & Hall). split; [|split].
    + destruct Hin as [->|Hin]; [|right; by right].
      destruct (Z.max_spec x z) as [[_ ->]|[_ ->]]; [right; left|by left].
    + lia.
    + intros y [->|Hy]%elem_of_cons; [lia|by apply Hall].
Qed.

(** [max] of a sequence that is not empty is its greatest element. *)
Lemma max_ok l :
  l ≠ [] → ∃ M, max_ l = Ok M ∧ M ∈ l ∧ ∀ y, y ∈ l → y ≤ M.
Proof.
  destruct l as [|x l]; [done|]. intros _. simpl. eexists. split; [done|].
  destruct (foldl_max l x) as (Hin & Hle & Hall). split.
  - destruct Hin as [->|Hin]; [left|by right].
  - intros y [->|Hy]%elem_of_cons; [done|by apply Hall].
Qed.

Lemma max_empty : max_ [] = Raise (ValueError "max() arg is an empty sequence").
Proof. reflexivity. Qed.

Lemma sumZ_ext {A} (f g : A → Z) l :
  (∀ x, x ∈ l → f x = g x) → sumZ (f <$> l) = sumZ (g <$> l).
Proof.
  unfold sumZ. induction l as [|x l IH]; intros Hext; simpl; [done|].
  rewrite Hext by left. f_equal. apply IH. intros y Hy. apply Hext. by right.
Qed.

End Arithmetic.

(* ===================================================================== *)
(** * Dictionaries enumerated as lists                                    *)
(* ===================================================================== *)

Section Items.

Context {A : Type}.
Implicit Types (d : gmap string A).

Lemma iteritems_empty d : iteritems d = [] ↔ d = ∅.
Proof. apply map_to_list_empty_iff. Qed.

Lemma values_nonempty d : d ≠ ∅ → values d ≠ [].
Proof.
  intros Hd Hv. apply Hd, iteritems_empty. unfold values in Hv.
  by apply fmap_nil_inv in Hv.
Qed.

Lemma keys_nonempty d : d ≠ ∅ → keys d ≠ [].
Proof.
  intros Hd Hv. apply Hd, iteritems_empty. unfold keys in Hv.
  by apply fmap_nil_inv in Hv.
Qed.

Lemma elem_of_values d v : v ∈ values d ↔ ∃ k, d !! k = Some v.
Proof.
  unfold values, iteritems. rewrite list_elem_of_fmap. split.
  - intros [[k v'] [-> Hin]]. apply elem_of_map_to_list in Hin. by exists k.
  - intros [k Hk]. exists (k, v). by rewrite elem_of_map_to_list.
Qed.

(** Storing [f v] under every key of a dictionary, entry by entry. *)
Lemma foldl_insert_notin {B} (f : A → B) (l : list (string * A)) k :
  ∀ acc : gmap string B,
  k ∉ l.*1 →
  foldl (λ acc' kv, <[kv.1 := f kv.2]> acc') acc l !! k = acc !! k.
Proof.
  induction l as [|[k0 v0] l IH]; intros acc Hk; simpl; [done|].
  apply not_elem_of_cons in Hk as [Hne Hk]. rewrite IH by done.
  by apply lookup_insert_ne.
Qed.

Lemma foldl_insert_in {B} (f : A → B) (l : list (string * A)) k v :
  ∀ acc : gmap string B,
  NoDup l.*1 → (k, v) ∈ l →
  foldl (λ acc' kv, <[kv.1 := f kv.2]> acc') acc l !! k = Some (f v).
Proof.
  induction l as [|[k0 v0] l IH]; intros acc Hnd Hin; simpl.
  - by apply elem_of_nil in Hin.
  - apply NoDup_cons in Hnd as [Hk0 Hnd].
    apply elem_of_cons in Hin as [[= -> ->]|Hin]; [|by apply IH].
    rewrite foldl_insert_notin by done. apply lookup_insert_eq.
Qed.

Lemma foldl_insert_items {B} (f : A → B) d :
  foldl (λ acc kv, <[kv.1 := f kv.2]> acc) ∅ (iteritems d) = f <$> d.
Proof.
  apply map_eq. intros k. rewrite lookup_fmap.
  destruct (d !! k) as [v|] eqn:Hk; simpl.
  - apply foldl_insert_in; [apply NoDup_fst_map_to_list|].
    by apply elem_of_map_to_list.
  - rewrite foldl_insert_notin; [done|].
    intros Hin. apply (elem_of_keys d k) in Hin as [v Hv]. congruence.
Qed.

End Items.

(* ===================================================================== *)
(** * Layout, rendering and the whole run                                 *)
(* ===================================================================== *)

Section Properties.

Variable ceil_pow_third : Z → Z.
Variable getsize : string → Z * Z.
Variable textsize : string → Z * Z.
Variable getrgb : string → result (Z * Z * Z).

Implicit Types (bp : gmap string (list patch)).
Implicit Types (m : gmap string (gmap string biome)).
Implicit Types (files : list biome_file).

Local Abbreviation plan := (plan ceil_pow_third getsize).
Local Abbreviation render := (render getsize textsize getrgb).
Local Abbreviation draw_type := (draw_type getsize textsize getrgb).
Local Abbreviation draw_cells := (draw_cells textsize getrgb).
Local Abbreviation draw_label := (draw_label getsize).
Local Abbreviation draw_row := (draw_row getsize textsize getrgb).
Local Abbreviation pipeline := (pipeline ceil_pow_third getsize textsize getrgb).
Local Abbreviation main := (main ceil_pow_third getsize textsize getrgb).

(** ** The rows of the layout *)

Lemma count_row_ok w (st : gmap string Z * Z) (item : string * list patch) :
  w ≠ 0 →
  count_row w st item =
  Ok (<[item.1 := (w - 1 + len item.2) / w]> st.1,
      st.2 + (w - 1 + len item.2) / w).
Proof. intros. unfold count_row, floordiv. by destruct (decide (w = 0)). Qed.

Lemma count_rows_ok w bp :
  w ≠ 0 →
  count_rows w bp =
  Ok ((λ ps, (w - 1 + len ps) / w) <$> bp,
      sumZ ((λ ps, (w - 1 + len ps) / w) <$> values bp)).
Proof.
  intros Hw. unfold count_rows, values.
  rewrite <-(foldl_insert_items (λ ps, (w - 1 + len ps) / w) bp).
  enough (∀ l (acc : gmap string Z) r,
    for_ l (count_row w) (acc, r) =
    Ok (foldl (λ acc' kv, <[kv.1 := (w - 1 + len kv.2) / w]> acc') acc l,
        r + sumZ ((λ ps, (w - 1 + len ps) / w) <$> l.*2))) as ->
    by done.
  induction l as [|[t ps] l IH]; intros acc r; cbn [for_ foldl].
  - unfold sumZ. simpl. by rewrite Z.add_0_r.
  - rewrite count_row_ok by done. simpl.
    rewrite IH. unfold sumZ. simpl. by rewrite Z.add_assoc.
Qed.

(** The canvas is created with the size that the layout computed. *)
Lemma render_canvas L bp img :
  render L bp = Ok img →
  mode img = "RGB" ∧ size img = (imageWidth L, imageHeight L) ∧
  color img = "#404040".
Proof.
  unfold Ewgpal.render. destruct (for_ _ _ _); simpl; [|done].
  by intros [= <-].
Qed.

Section Layout.

(** The only fact about the float computation that the layout needs: the
    cube root of a number that is at least one is not rounded to zero. *)
Hypothesis ceil_pow_third_pos : ∀ n, 1 ≤ n → 1 ≤ ceil_pow_third n.

Lemma plan_ok bp :
  bp ≠ ∅ → map_Forall (λ _ ps, ps ≠ []) bp →
  ∃ L, plan bp = Ok L ∧
    (∀ t ps, bp !! t = Some ps → 1 ≤ len ps ≤ maxPatches L) ∧
    (∃ t ps, bp !! t = Some ps ∧ len ps = maxPatches L) ∧
    wrapColumns L = 3 * ceil_pow_third (maxPatches L) ∧
    columns L = Z.min (maxPatches L) (wrapColumns L) ∧
    biomeTypeRows L = (λ ps, ceil_div (len ps) (columns L)) <$> bp ∧
    rows L = sumZ ((λ ps, ceil_div (len ps) (columns L)) <$> values bp) ∧
    imageWidth L = 1 + firstColumnWidth L + patchWidth L * columns L ∧
    imageHeight L = 1 + patchHeight L * rows L.
Proof.
  intros Hne Hall.
  destruct (max_ok (len <$> values bp)) as (M & HM & Hin & Hmax).
  { intros ?%fmap_nil_inv. by apply (values_nonempty bp). }
  destruct (max_ok ((λ t, (getsize t).1) <$> keys bp)) as (W & HW & _).
  { intros ?%fmap_nil_inv. by apply (keys_nonempty bp). }
  assert (∀ t ps, bp !! t = Some ps → 1 ≤ len ps ≤ M) as Hlen.
  { intros t ps Ht. split.
    - specialize (Hall t ps Ht). simpl in Hall. unfold len.
      destruct ps; [done|]. simpl. lia.
    - apply Hmax, list_elem_of_fmap. exists ps. split; [done|].
      apply elem_of_values. by exists t. }
  apply list_elem_of_fmap in Hin as (ps0 & HM0 & (t0 & Ht0)%elem_of_values).
  assert (1 ≤ M) as HM1 by (pose proof (Hlen t0 ps0 Ht0); lia).
  pose proof (ceil_pow_third_pos M HM1) as Hc.
  unfold Ewgpal.plan. rewrite HM. simpl.
  rewrite count_rows_ok by lia. simpl. rewrite HW. simpl.
  eexists. split; [done|]. simpl.
  split; [done|]. split; [by exists t0, ps0|].
  split; [done|]. split; [done|]. split; [|split; [|done]].
  - apply map_eq. intros t. rewrite !lookup_fmap.
    destruct (bp !! t) as [ps|] eqn:Ht; simpl; [|done].
    f_equal. apply wrapped_rows_columns; [by eapply Hlen|lia].
  - apply sumZ_ext. intros ps (t & Ht)%elem_of_values.
    apply wrapped_rows_columns; [by eapply Hlen|lia].
Qed.

(** C3. Whenever the extracted mapping is not empty the layout is computed,
    the number of columns is [min(maxPatches, wrapColumns)], every type
    takes [ceil(patchCount / columns)] rows, the total of rows is the sum of
    these over the types, and the canvas is
    [(1 + firstColumnWidth + patchWidth * columns, 1 + patchHeight * rows)],
    the size of the image that is created, although line 176 divides by
    [wrapColumns]. *)
Theorem layout_rows_and_canvas m bp :
  extract m = Ok bp → bp ≠ ∅ →
  ∃ L, plan bp = Ok L ∧
    (∀ t ps, bp !! t = Some ps → 1 ≤ len ps ≤ maxPatches L) ∧
    (∃ t ps, bp !! t = Some ps ∧ len ps = maxPatches L) ∧
    wrapColumns L = 3 * ceil_pow_third (maxPatches L) ∧
    columns L = Z.min (maxPatches L) (wrapColumns L) ∧
    biomeTypeRows L = (λ ps, ceil_div (len ps) (columns L)) <$> bp ∧
    rows L = sumZ ((λ ps, ceil_div (len ps) (columns L)) <$> values bp) ∧
    imageWidth L = 1 + firstColumnWidth L + patchWidth L * columns L ∧
    imageHeight L = 1 + patchHeight L * rows L ∧
    ∀ img, render L bp = Ok img →
      size img = (1 + firstColumnWidth L + patchWidth L * columns L,
                  1 + patchHeight L * rows L).
Proof.
  intros Hex Hne.
  destruct (plan_ok bp Hne (extract_nonempty m bp Hex))
    as (L & HL & Hlen & Hmax & Hw & Hc & Hr & Hrows & Hwidth & Hheight).
  exists L. repeat (split; [done|]).
  intros img (_ & -> & _)%render_canvas. by rewrite Hwidth, Hheight.
Qed.

End Layout.

(** Without any type there is nothing to take the maximum of. *)
Lemma plan_empty : plan ∅ = Raise (ValueError "max() arg is an empty sequence").
Proof. reflexivity. Qed.

(** ** The drawing loops only append *)

Lemma draw_cells_append L row r patches cs : ∀ ops,
  draw_cells L row r patches cs ops =
  (ops ++.) <$> draw_cells L row r patches cs [].
Proof.
  induction cs as [|c cs IH]; intros ops; simpl.
  - by rewrite app_nil_r.
  - destruct (decide _); simpl; [by rewrite app_nil_r|].
    destruct (getindex patches _) as [p|]; simpl; [|done].
    destruct (draw_patch _ _ L row c p) as [cell|]; simpl; [|done].
    rewrite (IH (ops ++ cell)), (IH cell).
    destruct (draw_cells L row r patches cs []); simpl; [|done].
    by rewrite app_assoc.
Qed.

Lemma for_appending {A X} (body : Z * list X → A → result (Z * list X)) l :
  appending body → ∀ row ops,
  for_ l body (row, ops) =
  (λ st, (st.1, ops ++ st.2)) <$> for_ l body (row, []).
Proof.
  intros Hbody. induction l as [|x l IH]; intros row ops; simpl.
  - by rewrite app_nil_r.
  - rewrite (Hbody row ops x).
    destruct (body (row, []) x) as [[row1 ops1]|]; simpl; [|done].
    rewrite (IH row1 (ops ++ ops1)), (IH row1 ops1).
    destruct (for_ l body (row1, [])) as [[row2 ops2]|]; simpl; [|done].
    by rewrite app_assoc.
Qed.

(** What an appending loop draws is, item by item, what its body draws. *)
Lemma for_blocks {A X} (body : Z * list X → A → result (Z * list X)) l :
  appending body → ∀ row row' ops,
  for_ l body (row, []) = Ok (row', ops) →
  ∃ blocks, ops = concat blocks ∧
    Forall2 (λ x block, ∃ r r', body (r, []) x = Ok (r', block)) l blocks.
Proof.
  intros Hbody. induction l as [|x l IH]; intros row row' ops; simpl.
  - intros [= _ <-]. by exists [].
  - destruct (body (row, []) x) as [[row1 ops1]|] eqn:Hx; simpl; [|done].
    rewrite for_appending by done.
    destruct (for_ l body (row1, [])) as [[row2 ops2]|] eqn:Hl; simpl; [|done].
    intros [= _ <-]. destruct (IH _ _ _ Hl) as (blocks & -> & Hblocks).
    exists (ops1 :: blocks). split; [done|]. constructor; [eauto|done].
Qed.

Lemma draw_row_appending L patches t : appending (draw_row L patches t).
Proof.
  intros row ops r. unfold Ewgpal.draw_row. simpl.
  rewrite (draw_cells_append _ _ _ _ _ (ops ++ _)),
    (draw_cells_append _ _ _ _ _ (draw_label _ _ _)).
  destruct (draw_cells L row r patches _ []); simpl; [|done].
  by rewrite <-app_assoc.
Qed.

Lemma draw_type_appending L bp : appending (draw_type L bp).
Proof.
  intros row ops t. unfold Ewgpal.draw_type.
  destruct (getitem (biomeTypeRows L) t) as [typeRows|]; simpl; [|done].
  apply for_appending, draw_row_appending.
Qed.

(** The block of a type begins with the label of the type. *)
Lemma draw_type_label L bp row t row' block :
  draw_type L bp (row, []) t = Ok (row', block) →
  block = [] ∨ ∃ rest, block = draw_label L row t ++ rest.
Proof.
  unfold Ewgpal.draw_type.
  destruct (getitem (biomeTypeRows L) t) as [typeRows|]; simpl; [|done].
  destruct (range typeRows) as [|r rs]; cbn [for_]; [intros [= _ <-]; by left|].
  destruct (draw_row L _ t (row, []) r) as [[row1 ops1]|] eqn:Hrow; simpl;
    [|done].
  rewrite for_appending by apply draw_row_appending.
  destruct (for_ rs _ _) as [[row2 ops2]|]; simpl; [|done].
  intros [= _ <-]. right.
  unfold Ewgpal.draw_row in Hrow. simpl in Hrow.
  rewrite draw_cells_append in Hrow.
  destruct (draw_cells L row r _ _ []) as [cells|]; simpl in Hrow; [|done].
  injection Hrow as _ <-. by eexists.
Qed.

Lemma render_blocks L bp img :
  render L bp = Ok img →
  ∃ blocks, drawn img = concat blocks ∧
    Forall2 (λ t block,
               ∃ row row', draw_type L bp (row, []) t = Ok (row', block) ∧
                 (block = [] ∨ ∃ rest, block = draw_label L row t ++ rest))
      (sorted (keys bp)) blocks.
Proof.
  unfold Ewgpal.render.
  destruct (for_ _ _ _) as [[row ops]|] eqn:Hfor; simpl; [|done].
  intros [= <-]. simpl.
  apply for_blocks in Hfor as (blocks & -> & Hblocks);
    [|apply draw_type_appending].
  exists blocks. split; [done|].
  eapply Forall2_impl; [done|]. simpl.
  intros t block (r & r' & Hb). exists r, r'. split; [done|].
  by eapply draw_type_label.
Qed.

(** ** The whole run *)

Lemma pipeline_erase m : pipeline (erase_grouping m) = pipeline m.
Proof. unfold Ewgpal.pipeline. by rewrite extract_erase. Qed.

Lemma main_erase files : main (erase_file <$> files) = main files.
Proof.
  unfold Ewgpal.main.
  assert (load (erase_file <$> files) [] ∅ =
          ((load files [] ∅).1, erase_grouping <$> (load files [] ∅).2)) as ->.
  { rewrite <-load_erase. unfold erase_grouping. by rewrite fmap_empty. }
  simpl. f_equal.
  destruct (load files [] ∅).2 as [m|]; simpl; [apply pipeline_erase|done].
Qed.

(** C1 (amended). A record without the ['biomeType'] key is not dropped:
    the lookup raises [KeyError] (on ['enabled'] when that key is absent as
    well), which nothing catches. The record is not grouped, the files after
    it are not read, nothing is extracted or rendered, and the run ends with
    status 1, leaving on the error stream what was printed before. *)
Theorem missing_biomeType_raises files1 files2 name b err m :
  load files1 [] ∅ = (err, Ok m) →
  biomeType b = None →
  main (files1 ++ {| biomeFileName := name; contents := Loaded b |} :: files2) =
    {| err_stream := err;
       saved := Raise (KeyError (match enabled b with
                                 | Some _ => "biomeType"
                                 | None => "enabled"
                                 end)) |} ∧
  exit_status
    (main (files1 ++ {| biomeFileName := name; contents := Loaded b |}
             :: files2)) = 1.
Proof.
  intros Hload Hb. unfold Ewgpal.main, Ewgpal.exit_status.
  erewrite load_raise; [done..|].
  intros baseName. by apply load_biome_no_biomeType.
Qed.

(** C2 (amended). When no biome type survives loading and extraction, no
    diagnostic of the script reports it: [max] is evaluated on the empty
    sequence and raises [ValueError], which nothing catches. The run ends
    with status 1 before any layout arithmetic, no image is saved, and the
    error stream holds the lines of the malformed files only. *)
Theorem empty_palette_raises files err m :
  load files [] ∅ = (err, Ok m) →
  extract m = Ok ∅ →
  main files =
    {| err_stream := json_errors files;
       saved := Raise (ValueError "max() arg is an empty sequence") |} ∧
  exit_status (main files) = 1.
Proof.
  intros Hload Hex. unfold Ewgpal.main, Ewgpal.pipeline, Ewgpal.exit_status.
  rewrite Hload. simpl. rewrite Hex. simpl.
  apply load_ok_err in Hload as ->. done.
Qed.

(** C5. The extraction visits the biome types in increasing order of their
    names and, within a type, the biomes in increasing order of their names;
    the patch list of a type is the concatenation, in that order, of the
    colours of each biome in the order of its file, normalised. The renderer
    draws the types of [biomePatches] in increasing order, one block of
    drawing operations after the other, each beginning with its label. *)
Theorem patches_in_sorted_order m bp :
  extract m = Ok bp →
  (extract m = for_ (sorted (keys m)) (extract_type m) ∅ ∧
   StronglySorted str_lt (sorted (keys m)) ∧
   ∀ t, t ∈ sorted (keys m) ↔ is_Some (m !! t)) ∧
  (∀ t biomes, m !! t = Some biomes →
     StronglySorted str_lt (sorted (keys biomes)) ∧
     (∀ name, name ∈ sorted (keys biomes) ↔ is_Some (biomes !! name)) ∧
     patches_at bp t =
       concat ((λ name,
                  (λ c, {| biomeName := name; biomeColor := colorCode c |})
                    <$> colors_of biomes name)
                 <$> sorted (keys biomes))) ∧
  (StronglySorted str_lt (sorted (keys bp)) ∧
   ∀ t, t ∈ sorted (keys bp) ↔ is_Some (bp !! t)) ∧
  (∀ L img, render L bp = Ok img →
     ∃ blocks, drawn img = concat blocks ∧
       Forall2 (λ t block,
                  ∃ row row', draw_type L bp (row, []) t = Ok (row', block) ∧
                    (block = [] ∨ ∃ rest, block = draw_label L row t ++ rest))
         (sorted (keys bp)) blocks).
Proof.
  intros Hex. split; [|split; [|split]].
  - split; [done|]. split; [apply sorted_keys_increasing|].
    apply elem_of_sorted_keys.
  - intros t biomes Ht. split; [apply sorted_keys_increasing|].
    split; [apply elem_of_sorted_keys|].
    by rewrite (extract_patches_at m bp t Hex), Ht.
  - split; [apply sorted_keys_increasing|apply elem_of_sorted_keys].
  - intros L img. apply render_blocks.
Qed.

(** C6. A file that does not parse adds exactly one line to the error
    stream, made of the name of the file, the line and the column of the
    error and its message; the file is skipped, and the files after it are
    processed as if it were not there: the grouping and the image are the
    same, and so is the rest of the error stream. *)
Theorem malformed_file_reported_and_skipped
    files1 files2 name msg lineno colno err m :
  load files1 [] ∅ = (err, Ok m) →
  ∃ rest,
    err_stream (main (files1 ++ files2)) = err ++ rest ∧
    err_stream
      (main (files1 ++ {| biomeFileName := name;
                          contents := JSONDecodeError msg lineno colno |}
               :: files2)) =
      err ++ ("JSON error: " +:+ name +:+ ": line " +:+ str lineno
                +:+ ", column " +:+ str colno +:+ ": " +:+ msg) :: rest ∧
    (load (files1 ++ {| biomeFileName := name;
                        contents := JSONDecodeError msg lineno colno |}
             :: files2) [] ∅).2 =
      (load (files1 ++ files2) [] ∅).2 ∧
    saved
      (main (files1 ++ {| biomeFileName := name;
                          contents := JSONDecodeError msg lineno colno |}
               :: files2)) =
      saved (main (files1 ++ files2)).
Proof.
  intros Hload.
  destruct (load_malformed files1 files2 name msg lineno colno err m Hload)
    as [Hbad Hgood].
  exists (load files2 [] m).1. unfold Ewgpal.main. rewrite Hbad, Hgood. done.
Qed.

(** C9 (amended). [colorCode] does not validate: every patch colour is the
    normalisation of a colour of its biome and begins with ['#'], and it
    matches [#[0-9A-Fa-f]{6}] exactly when that source colour is six hex
    digits, bare or after a ['#']. *)
Theorem patch_colors_normalised m bp t ps p :
  extract m = Ok bp → bp !! t = Some ps → p ∈ ps →
  ∃ c, c ∈ colors_of (default ∅ (m !! t)) (biomeName p) ∧
    biomeColor p = colorCode c ∧
    startswith (biomeColor p) "#" = true ∧
    matches_hex_color (biomeColor p) = valid_source c.
Proof.
  intros Hex Ht Hp.
  pose proof (extract_patches_at m bp t Hex) as Hat.
  unfold patches_at in Hat. rewrite Ht in Hat. simpl in Hat. rewrite Hat in Hp.
  apply elem_of_patches_of_type in Hp as (_ & c & Hc & Hpc).
  exists c. rewrite Hpc. repeat split; [done|..].
  - apply startswith_colorCode.
  - apply matches_colorCode.
Qed.

(** C10. The value of ['enabled'] has no effect: two lists of files that
    differ in the values of ['enabled'] only give the same grouping (up to
    those values), the same patches, the same layout and the same run, image
    and error stream included. A record without the key is not skipped: the
    lookup raises [KeyError], which ends the run. *)
Theorem enabled_value_is_ignored :
  (∀ files1 files2,
     erase_file <$> files1 = erase_file <$> files2 →
     erase_grouping <$> (load files1 [] ∅).2 =
       erase_grouping <$> (load files2 [] ∅).2 ∧
     (load files1 [] ∅).2 ≫= extract = (load files2 [] ∅).2 ≫= extract ∧
     ((load files1 [] ∅).2 ≫= extract) ≫= plan =
       ((load files2 [] ∅).2 ≫= extract) ≫= plan ∧
     main files1 = main files2) ∧
  (∀ files1 files2 name b err m,
     load files1 [] ∅ = (err, Ok m) →
     enabled b = None →
     main (files1 ++ {| biomeFileName := name; contents := Loaded b |}
             :: files2) =
       {| err_stream := err; saved := Raise (KeyError "enabled") |}).
Proof.
  split.
  - intros files1 files2 Heq.
    assert (erase_grouping <$> (load files1 [] ∅).2 =
            erase_grouping <$> (load files2 [] ∅).2) as Hgroup.
    { pose proof (load_erase files1 [] ∅) as H1.
      pose proof (load_erase files2 [] ∅) as H2.
      rewrite Heq in H1. rewrite H1 in H2. by injection H2. }
    assert ((load files1 [] ∅).2 ≫= extract =
            (load files2 [] ∅).2 ≫= extract) as Hpatches.
    { destruct (load files1 [] ∅).2 as [m1|], (load files2 [] ∅).2 as [m2|];
        simpl in *; try done; try congruence.
      injection Hgroup as Hgroup.
      by rewrite <-(extract_erase m1), <-(extract_erase m2), Hgroup. }
    split; [done|]. split; [done|]. split; [by rewrite Hpatches|].
    by rewrite <-(main_erase files1), <-(main_erase files2), Heq.
  - intros files1 files2 name b err m Hload Hb. unfold Ewgpal.main.
    erewrite load_raise; [done..|].
    intros baseName. by apply load_biome_no_enabled.
Qed.

End Properties.

(* ===================================================================== *)
(** * The properties on the sample inputs                                 *)
(* ===================================================================== *)

Section Samples.

Import Sample.

(** Closed statements on the samples are settled by evaluation. *)
Local Ltac evaluate := vm_compute; reflexivity.

Lemma cbrt_search_ge fuel : ∀ n k, k ≤ cbrt_search fuel n k.
Proof.
  induction fuel as [|fuel IH]; intros n k; simpl; [done|].
  destruct (decide _); [done|]. specialize (IH n (k + 1)). lia.
Qed.

Lemma ceil_cbrt_pos n : 1 ≤ n → 1 ≤ ceil_cbrt n.
Proof.
  intros Hn. unfold ceil_cbrt.
  destruct (Z.to_nat n) as [|fuel] eqn:Hfuel; [lia|]. simpl.
  destruct (decide _); [lia|]. pose proof (cbrt_search_ge fuel n (0 + 1)). lia.
Qed.

Lemma cbrt_search_spec fuel : ∀ n k,
  0 ≤ k → (k - 1) * (k - 1) * (k - 1) < n →
  n ≤ (k + Z.of_nat fuel) * (k + Z.of_nat fuel) * (k + Z.of_nat fuel) →
  (cbrt_search fuel n k - 1) * (cbrt_search fuel n k - 1)
    * (cbrt_search fuel n k - 1) < n
  ≤ cbrt_search fuel n k * cbrt_search fuel n k * cbrt_search fuel n k.
Proof.
  induction fuel as [|fuel IH]; intros n k Hk Hlow Hhigh; simpl.
  - replace (k + Z.of_nat 0) with k in Hhigh by lia. lia.
  - destruct (decide _); [lia|]. apply IH; [lia| |].
    + replace (k + 1 - 1) with k by lia. lia.
    + replace (k + 1 + Z.of_nat fuel) with (k + Z.of_nat (S fuel)) by lia. done.
Qed.

(** [ceil_cbrt n] is the least [k] with [n ≤ k^3]. *)
Lemma ceil_cbrt_spec n :
  1 ≤ n →
  (ceil_cbrt n - 1) * (ceil_cbrt n - 1) * (ceil_cbrt n - 1) < n
  ≤ ceil_cbrt n * ceil_cbrt n * ceil_cbrt n.
Proof.
  intros Hn. apply cbrt_search_spec; [done|lia|].
  rewrite Z2Nat.id by lia. nia.
Qed.

Lemma sample_load :
  load [oak; broken; birch; dune] [] ∅ =
  (["JSON error: world/settings/biomes/deserts/Mesa.json: line 3, column 7: Expecting value"],
   Ok grouping).
Proof. evaluate. Qed.

Lemma sample_extract : extract grouping = Ok patches.
Proof. evaluate. Qed.

Local Abbreviation sample_main :=
  (main Sample.ceil_cbrt Sample.getsize Sample.getsize Sample.getrgb).

(** C1, on the code: the record without a type ends the run, although the
    desert biome after it renders on its own. *)
Lemma missing_biomeType_counterexample :
  biomeType untyped = None ∧
  sample_main [no_type; dune] =
    {| err_stream := []; saved := Raise (KeyError "biomeType") |} ∧
  ∃ img, sample_main [dune] = {| err_stream := []; saved := Ok img |}.
Proof.
  split; [done|]. split; [evaluate|]. eexists. evaluate.
Qed.

Lemma missing_biomeType_raises_witness :
  load [oak] [] ∅ = ([], Ok {[ "Forest" := {[ "Oak" :=
     {| enabled := Some true; biomeType := Some "Forest";
        biomeColors := Some ["2e8b57"] |} ]} ]}) ∧
  biomeType untyped = None ∧
  sample_main ([oak] ++ no_type :: [dune]) =
    {| err_stream := []; saved := Raise (KeyError "biomeType") |} ∧
  exit_status (sample_main ([oak] ++ no_type :: [dune])) = 1.
Proof.
  assert (load [oak] [] ∅ = ([], Ok {[ "Forest" := {[ "Oak" :=
     {| enabled := Some true; biomeType := Some "Forest";
        biomeColors := Some ["2e8b57"] |} ]} ]})) as Hload
    by evaluate.
  split; [exact Hload|]. split; [reflexivity|].
  exact (missing_biomeType_raises Sample.ceil_cbrt Sample.getsize
           Sample.getsize Sample.getrgb [oak] [dune]
           "world/settings/biomes/misc/Void.json" untyped [] _ Hload eq_refl).
Defined.

(** C2, on the code: with no file at all, and with a malformed file only,
    the run ends on the [ValueError] of [max]; the error stream has no line
    about biomes. *)
Lemma empty_palette_counterexample :
  (load [] [] ∅).2 ≫= extract = Ok ∅ ∧
  sample_main [] =
    {| err_stream := [];
       saved := Raise (ValueError "max() arg is an empty sequence") |} ∧
  sample_main [broken] =
    {| err_stream :=
         ["JSON error: world/settings/biomes/deserts/Mesa.json: line 3, column 7: Expecting value"];
       saved := Raise (ValueError "max() arg is an empty sequence") |}.
Proof. repeat split; evaluate. Qed.

Lemma empty_palette_raises_witness :
  sample_main [broken] =
    {| err_stream :=
         ["JSON error: world/settings/biomes/deserts/Mesa.json: line 3, column 7: Expecting value"];
       saved := Raise (ValueError "max() arg is an empty sequence") |} ∧
  exit_status (sample_main [broken]) = 1.
Proof.
  exact (empty_palette_raises Sample.ceil_cbrt Sample.getsize Sample.getsize
           Sample.getrgb [broken] _ ∅ eq_refl eq_refl).
Defined.

(** C3 on the sample: three columns, one row for each of the two types. *)
Lemma layout_rows_and_canvas_witness :
  extract grouping = Ok patches ∧ patches ≠ ∅ ∧
  ∃ L, plan Sample.ceil_cbrt Sample.getsize patches = Ok L ∧
    maxPatches L = 3 ∧ wrapColumns L = 6 ∧ columns L = 3 ∧
    biomeTypeRows L = {[ "Forest" := 1; "Desert" := 1 ]} ∧ rows L = 2 ∧
    imageWidth L = 1 + firstColumnWidth L + patchWidth L * 3 ∧
    imageHeight L = 1 + patchHeight L * 2.
Proof.
  split; [exact sample_extract|].
  assert (patches ≠ ∅) as Hne by apply insert_non_empty.
  split; [exact Hne|].
  destruct (layout_rows_and_canvas Sample.ceil_cbrt Sample.getsize
              Sample.getsize Sample.getrgb ceil_cbrt_pos grouping patches
              sample_extract Hne)
    as (L & HL & _ & _ & Hw & Hc & Hr & Hrows & Hwidth & Hheight & _).
  exists L. split; [exact HL|].
  assert (maxPatches L = 3) as HM
    by (vm_compute in HL; injection HL as <-; reflexivity).
  rewrite HM in Hw. rewrite HM, Hw in Hc. change (columns L = 3) in Hc.
  rewrite Hc in Hr, Hrows, Hwidth.
  assert (rows L = 2) as Hrows' by (rewrite Hrows; vm_compute; reflexivity).
  rewrite Hrows' in Hheight.
  repeat split; done.
Defined.

(** C5 on the sample: [Desert] before [Forest], [Birch] before [Oak]. *)
Lemma patches_in_sorted_order_witness :
  extract grouping = Ok patches ∧
  sorted (keys grouping) = ["Desert"; "Forest"] ∧
  patches_at patches "Forest" =
    [ {| biomeName := "Birch"; biomeColor := "#9acd32" |};
      {| biomeName := "Oak"; biomeColor := "#2e8b57" |} ].
Proof.
  split; [exact sample_extract|]. split; [evaluate|].
  destruct (patches_in_sorted_order Sample.getsize Sample.getsize Sample.getrgb
              grouping patches sample_extract) as (_ & Hnames & _).
  destruct (Hnames "Forest"
              {[ "Oak" := {| enabled := Some true; biomeType := Some "Forest";
                             biomeColors := Some ["2e8b57"] |};
                 "Birch" := {| enabled := Some false; biomeType := Some "Forest";
                               biomeColors := Some ["#9acd32"] |} ]})
    as (_ & _ & ->); evaluate.
Defined.

(** C6 on the sample: the line of [Mesa.json] and nothing else. *)
Lemma malformed_file_reported_and_skipped_witness :
  ∃ rest,
    err_stream (sample_main ([oak] ++ [birch; dune])) = [] ++ rest ∧
    err_stream (sample_main ([oak] ++ broken :: [birch; dune])) =
      [] ++ "JSON error: world/settings/biomes/deserts/Mesa.json: line 3, column 7: Expecting value"
         :: rest ∧
    (load ([oak] ++ broken :: [birch; dune]) [] ∅).2 =
      (load ([oak] ++ [birch; dune]) [] ∅).2 ∧
    saved (sample_main ([oak] ++ broken :: [birch; dune])) =
      saved (sample_main ([oak] ++ [birch; dune])).
Proof.
  exact (malformed_file_reported_and_skipped Sample.ceil_cbrt Sample.getsize
           Sample.getsize Sample.getrgb [oak] [birch; dune]
           "world/settings/biomes/deserts/Mesa.json" "Expecting value" 3 7
           [] _ eq_refl).
Defined.

(** C9, on the code: a colour name goes through [colorCode] with a ['#']
    in front, which is not of the form [#[0-9A-Fa-f]{6}]. *)
Lemma patch_color_counterexample :
  load [named_color] [] ∅ = ([], Ok lava_grouping) ∧
  extract lava_grouping =
    Ok {[ "Misc" := [ {| biomeName := "Lava"; biomeColor := "#red" |} ] ]} ∧
  matches_hex_color "#red" = false.
Proof. repeat split; evaluate. Qed.

Lemma patch_colors_normalised_witness :
  ∃ c, c ∈ colors_of (default ∅ (grouping !! "Forest")) "Oak" ∧
    "#2e8b57" = colorCode c ∧
    startswith "#2e8b57" "#" = true ∧
    matches_hex_color "#2e8b57" = valid_source c.
Proof.
  apply (patch_colors_normalised grouping patches "Forest"
           [ {| biomeName := "Birch"; biomeColor := "#9acd32" |};
             {| biomeName := "Oak"; biomeColor := "#2e8b57" |} ]
           {| biomeName := "Oak"; biomeColor := "#2e8b57" |}).
  - exact sample_extract.
  - evaluate.
  - right. left.
Defined.

(** C10 on the sample: enabling [Birch] changes nothing, and a record
    without ['enabled'] ends the run. *)
Lemma enabled_value_is_ignored_witness :
  sample_main [oak; birch; dune] = sample_main [oak; birch_enabled; dune] ∧
  sample_main ([oak] ++ no_enabled :: [dune]) =
    {| err_stream := []; saved := Raise (KeyError "enabled") |}.
Proof.
  destruct (enabled_value_is_ignored Sample.ceil_cbrt Sample.getsize
              Sample.getsize Sample.getrgb) as [Hsame Hmissing].
  split.
  - apply (Hsame [oak; birch; dune] [oak; birch_enabled; dune]). reflexivity.
  - apply (Hmissing [oak] [dune] "world/settings/biomes/misc/Limbo.json"
             unflagged [] {[ "Forest" := {[ "Oak" :=
               {| enabled := Some true; biomeType := Some "Forest";
                  biomeColors := Some ["2e8b57"] |} ]} ]});
      [evaluate|reflexivity].
Defined.

End Samples.

(* ===================================================================== *)
(** * Further properties: [maxSize], [colorCode], [contrastingColor]      *)
(* ===================================================================== *)

Section Functions.

(** [max] is characterised by its two properties. *)
Lemma max_unique l M :
  M ∈ l → (∀ y, y ∈ l → y ≤ M) → max_ l = Ok M.
Proof.
  intros Hin Hmax. destruct (max_ok l) as (M' & -> & Hin' & Hmax').
  { intros ->. by apply elem_of_nil in Hin. }
  f_equal. apply Z.le_antisymm; [by apply Hmax|by apply Hmax'].
Qed.

Lemma max_Raise l e : max_ l = Raise e → l = [].
Proof. by destruct l. Qed.

Lemma max_app l1 l2 M1 M2 :
  max_ l1 = Ok M1 → max_ l2 = Ok M2 → max_ (l1 ++ l2) = Ok (Z.max M1 M2).
Proof.
  intros H1 H2.
  destruct (max_ok l1) as (M1' & H1' & Hin1 & Hmax1); [by intros ->|].
  destruct (max_ok l2) as (M2' & H2' & Hin2 & Hmax2); [by intros ->|].
  rewrite H1 in H1'. rewrite H2 in H2'. injection H1' as <-. injection H2' as <-.
  apply max_unique.
  - destruct (Z.max_spec M1 M2) as [[_ ->]|[_ ->]]; set_solver.
  - intros y [Hy|Hy]%elem_of_app; [apply Hmax1 in Hy|apply Hmax2 in Hy]; lia.
Qed.

Lemma max_perm l1 l2 : l1 ≡ₚ l2 → max_ l1 = max_ l2.
Proof.
  intros Hp. destruct l1 as [|x l1].
  - by apply Permutation_nil_l in Hp as ->.
  - destruct (max_ok (x :: l1)) as (M & -> & Hin & Hmax); [done|].
    symmetry. apply max_unique; [by rewrite <-Hp|].
    intros y Hy. apply Hmax. by rewrite Hp.
Qed.

Lemma maxSize_cases sizes :
  maxSize sizes =
  match max_ ((λ s, s.1) <$> sizes), max_ ((λ s, s.2) <$> sizes) with
  | Ok w, Ok h => Ok (w, h)
  | Raise e, _ => Raise e
  | Ok _, Raise e => Raise e
  end.
Proof. unfold maxSize. by destruct (max_ _), (max_ _). Qed.

(** X1. [maxSize] raises exactly on the empty tuple; otherwise the pair it
    returns dominates every size in both components, and each of its
    components is the component of one of the sizes. *)
Theorem maxSize_spec (sizes : list (Z * Z)) :
  (maxSize sizes = Raise (ValueError "max() arg is an empty sequence")
   ↔ sizes = []) ∧
  (∀ e, maxSize sizes = Raise e →
        e = ValueError "max() arg is an empty sequence") ∧
  (∀ w h, maxSize sizes = Ok (w, h) →
     (∀ s, s ∈ sizes → s.1 ≤ w ∧ s.2 ≤ h) ∧
     (∃ s, s ∈ sizes ∧ s.1 = w) ∧ (∃ s, s ∈ sizes ∧ s.2 = h)).
Proof.
  destruct sizes as [|s0 sizes].
  - split; [done|]. split; [by intros e [= <-]|done].
  - destruct (max_ok ((λ s, s.1) <$> s0 :: sizes)) as (W & HW & HWin & HWmax);
      [done|].
    destruct (max_ok ((λ s, s.2) <$> s0 :: sizes)) as (H & HH & HHin & HHmax);
      [done|].
    rewrite maxSize_cases, HW, HH.
    split; [done|]. split; [done|]. intros w h [= <- <-].
    apply list_elem_of_fmap in HWin as (sw & -> & Hsw).
    apply list_elem_of_fmap in HHin as (sh & -> & Hsh).
    split; [|split; eauto].
    intros s Hs. split.
    + apply HWmax, list_elem_of_fmap. eauto.
    + apply HHmax, list_elem_of_fmap. eauto.
Qed.

(** X2. [maxSize] does not depend on the order of the sizes, and the
    maximum of two tuples put together is the maximum of their maxima. *)
Theorem maxSize_compose (sizes1 sizes2 : list (Z * Z)) (s1 s2 : Z * Z) :
  maxSize sizes1 = Ok s1 → maxSize sizes2 = Ok s2 →
  maxSize (sizes1 ++ sizes2) = Ok (Z.max s1.1 s2.1, Z.max s1.2 s2.2) ∧
  maxSize (sizes1 ++ sizes2) = maxSize [s1; s2] ∧
  ∀ sizes, sizes ≡ₚ sizes1 ++ sizes2 → maxSize sizes = maxSize [s1; s2].
Proof.
  rewrite !maxSize_cases. intros H1 H2.
  destruct (max_ ((λ s, s.1) <$> sizes1)) as [w1|] eqn:Hw1; [|done].
  destruct (max_ ((λ s, s.2) <$> sizes1)) as [h1|] eqn:Hh1; [|done].
  destruct (max_ ((λ s, s.1) <$> sizes2)) as [w2|] eqn:Hw2; [|done].
  destruct (max_ ((λ s, s.2) <$> sizes2)) as [h2|] eqn:Hh2; [|done].
  injection H1 as <-. injection H2 as <-. simpl.
  assert (∀ sizes, sizes ≡ₚ sizes1 ++ sizes2 →
    max_ ((λ s, s.1) <$> sizes) = Ok (Z.max w1 w2) ∧
    max_ ((λ s, s.2) <$> sizes) = Ok (Z.max h1 h2)) as Hall.
  { intros sizes Hp. split.
    - rewrite (max_perm _ ((λ s, s.1) <$> sizes1 ++ sizes2)) by by rewrite Hp.
      rewrite fmap_app. by apply max_app.
    - rewrite (max_perm _ ((λ s, s.2) <$> sizes1 ++ sizes2)) by by rewrite Hp.
      rewrite fmap_app. by apply max_app. }
  destruct (Hall (sizes1 ++ sizes2)) as [-> ->]; [done|].
  split; [done|]. split; [done|]. intros sizes Hp.
  rewrite maxSize_cases. by destruct (Hall sizes Hp) as [-> ->].
Qed.

Lemma strip_hash_colorCode s : colorCode s = String "#" (strip_hash s).
Proof.
  unfold colorCode. destruct s as [|a s]; simpl; [done|].
  destruct (Ascii.eqb a "#") eqn:Ha; [|done]. by apply Ascii.eqb_eq in Ha as ->.
Qed.

(** X3. [colorCode] identifies a colour with and without its ['#'] and
    nothing else: two strings have the same code exactly when they are equal
    once one leading ['#'] is removed; the code is that remainder after one
    ['#']. *)
Theorem colorCode_eq_iff (s t : string) :
  (colorCode s = colorCode t ↔ strip_hash s = strip_hash t) ∧
  colorCode s = String "#" (strip_hash s) ∧
  strip_hash (colorCode s) = strip_hash s.
Proof.
  rewrite !strip_hash_colorCode. split; [|done].
  split; [by intros [= ->]|by intros ->].
Qed.

Lemma contrastingColor_white r g b :
  0 ≤ r ≤ 255 → 0 ≤ g ≤ 255 → 0 ≤ b ≤ 255 →
  contrastingColor (r, g, b) = "#ffffff" ↔
  r * 299 + g * 587 + b * 114 < 123000.
Proof.
  intros. rewrite contrastingColor_dark, dark_table by lia.
  destruct (Z.ltb_spec (r * 299 + g * 587 + b * 114) 123000); split; (done || lia).
Qed.

(** X4. The choice of the text colour is monotone: when a background gets
    white text, so does every background that is not brighter in any
    component; when it gets black text, so does every background that is not
    darker in any component. *)
Theorem contrastingColor_monotone (r g b r' g' b' : Z) :
  0 ≤ r ≤ r' → r' ≤ 255 → 0 ≤ g ≤ g' → g' ≤ 255 → 0 ≤ b ≤ b' → b' ≤ 255 →
  (contrastingColor (r', g', b') = "#ffffff" →
   contrastingColor (r, g, b) = "#ffffff") ∧
  (contrastingColor (r, g, b) = "#000000" →
   contrastingColor (r', g', b') = "#000000").
Proof.
  intros.
  assert (contrastingColor (r', g', b') = "#ffffff" →
          contrastingColor (r, g, b) = "#ffffff") as Hwhite.
  { rewrite !contrastingColor_white by lia. lia. }
  split; [done|]. intros Hblack.
  rewrite (contrastingColor_dark r' g' b') in *.
  destruct (dark (r' * 299 + g' * 587 + b' * 114)); [|done].
  by rewrite Hwhite in Hblack.
Qed.

End Functions.

(* ===================================================================== *)
(** * Further properties: the loader                                      *)
(* ===================================================================== *)

Section LoaderMore.

Implicit Types (files : list biome_file) (err : list string).
Implicit Types (m : gmap string (gmap string biome)).

Lemma load_biome_ok baseName b m e t :
  enabled b = Some e → biomeType b = Some t →
  load_biome baseName b m = Ok (setitem2 t baseName b m).
Proof. unfold load_biome. by intros -> ->. Qed.

Lemma load_biome_cases baseName b m :
  (∃ e t, enabled b = Some e ∧ biomeType b = Some t ∧
          load_biome baseName b m = Ok (setitem2 t baseName b m)) ∨
  (load_biome baseName b m = Raise (KeyError "enabled") ∧ enabled b = None) ∨
  (load_biome baseName b m = Raise (KeyError "biomeType") ∧
   biomeType b = None).
Proof.
  unfold load_biome. destruct (enabled b) as [e|], (biomeType b) as [t|];
    simpl; eauto 10.
Qed.





Lemma lookup2_setitem2 t name b m t' name' :
  lookup2 (setitem2 t name b m) t' name' =
  if decide (t = t' ∧ name = name') then Some b else lookup2 m t' name'.
Proof.
  unfold lookup2, setitem2. destruct (decide (t = t')) as [<-|Ht].
  - rewrite lookup_insert_eq. simpl. destruct (decide (name = name')) as [<-|Hn].
    + rewrite lookup_insert_eq. by rewrite decide_True.
    + rewrite lookup_insert_ne by done.
      rewrite decide_False by (by intros [_ ?]). by destruct (m !! t).
  - rewrite lookup_insert_ne by done.
    by rewrite decide_False by (by intros [? _]).
Qed.

(** X6. A record that is loaded last is found under its type and the base
    name of its file; it replaces an earlier record of that type and base
    name, and every other entry of the grouping stays as it was. *)
Theorem load_last_wins files name b e t err m :
  load files [] ∅ = (err, Ok m) →
  enabled b = Some e → biomeType b = Some t →
  ∃ m',
    load (files ++ [{| biomeFileName := name; contents := Loaded b |}]) [] ∅ =
      (err, Ok m') ∧
    lookup2 m' t
      (baseName {| biomeFileName := name; contents := Loaded b |}) = Some b ∧
    ∀ t' name',
      ¬ (t = t' ∧
         baseName {| biomeFileName := name; contents := Loaded b |} = name') →
      lookup2 m' t' name' = lookup2 m t' name'.
Proof.
  intros Hload He Ht. rewrite load_app, Hload. simpl.
  rewrite (load_biome_ok _ b m e t He Ht). eexists. split; [done|].
  unfold baseName. simpl. split.
  - rewrite lookup2_setitem2. by rewrite decide_True.
  - intros t' name' Hne. rewrite lookup2_setitem2. by rewrite decide_False.
Qed.

Lemma grouped_from_setitem2 fs file b e t m :
  grouped_from fs m → contents file = Loaded b →
  enabled b = Some e → biomeType b = Some t →
  grouped_from (fs ++ [file]) (setitem2 t (baseName file) b m).
Proof.
  intros Hinv Hc He Ht t' biomes. unfold setitem2.
  destruct (decide (t = t')) as [<-|Hne].
  - rewrite lookup_insert_eq. intros [= <-]. split; [apply insert_non_empty|].
    intros name' b'. destruct (decide (baseName file = name')) as [<-|Hn].
    + rewrite lookup_insert_eq. intros [= <-]. split; [done|]. split; [eauto|].
      exists file. split; [|done]. apply elem_of_app. right. by left.
    + rewrite lookup_insert_ne by done. intros Hb'.
      destruct (m !! t) as [biomes|] eqn:Hm; simpl in Hb'; [|done].
      destruct (Hinv t biomes Hm) as [_ Hall].
      destruct (Hall name' b' Hb') as (? & ? & file' & ? & ? & ?).
      split; [done|]. split; [done|]. exists file'. split; [|done]. apply elem_of_app. by left.
  - rewrite lookup_insert_ne by done. intros Hm.
    destruct (Hinv t' biomes Hm) as [? Hall]. split; [done|].
    intros name' b' Hb'.
    destruct (Hall name' b' Hb') as (? & ? & file' & ? & ? & ?).
    split; [done|]. split; [done|]. exists file'. split; [|done]. apply elem_of_app. by left.
Qed.

Lemma load_grouped_from files : ∀ fs err m err' m',
  grouped_from fs m → load files err m = (err', Ok m') →
  grouped_from (fs ++ files) m'.
Proof.
  induction files as [|file files IH]; intros fs err m err' m' Hinv; simpl.
  - intros [= _ <-]. by rewrite app_nil_r.
  - replace (fs ++ file :: files) with ((fs ++ [file]) ++ files)
      by by rewrite <-app_assoc.
    destruct (contents file) as [msg lineno colno|b] eqn:Hc.
    + apply IH. intros t biomes Hm. destruct (Hinv t biomes Hm) as [? Hall].
      split; [done|]. intros name b Hb.
      destruct (Hall name b Hb) as (? & ? & file' & ? & ? & ?).
      split; [done|]. split; [done|]. exists file'. split; [|done]. apply elem_of_app. by left.
    + destruct (load_biome_cases
                  (OsPath.splitext (OsPath.basename (biomeFileName file))).1 b m)
        as [(e & t & He & Ht & ->)|[[-> _]|[-> _]]]; [|done..].
      apply IH. by eapply grouped_from_setitem2.
Qed.

(** X7. In the grouping that the loader returns no type is empty, and every
    record is filed under the type that it names itself, has the key
    ['enabled'], and is the record of one of the files, filed under the
    base name of that file. *)
Theorem grouping_invariant files err m :
  load files [] ∅ = (err, Ok m) →
  ∀ t biomes, m !! t = Some biomes →
    biomes ≠ ∅ ∧
    ∀ name b, biomes !! name = Some b →
      biomeType b = Some t ∧ is_Some (enabled b) ∧
      ∃ file, file ∈ files ∧ contents file = Loaded b ∧ baseName file = name.
Proof.
  intros Hload. apply (load_grouped_from files [] [] ∅ err m); [|done].
  intros t biomes. by rewrite lookup_empty.
Qed.

End LoaderMore.

(* ===================================================================== *)
(** * Further properties: loops that raise, and the extractor             *)
(* ===================================================================== *)

Section LoopsMore.

Context {A S : Type}.
Implicit Types (l : list A) (body : S → A → result S).



End LoopsMore.

Section ExtractorMore.

Implicit Types (bp : gmap string (list patch)) (biomes : gmap string biome).
Implicit Types (m : gmap string (gmap string biome)).






Lemma elem_of_patches_of_type_iff biomes p :
  p ∈ patches_of_type biomes ↔
  ∃ b cs c, biomes !! biomeName p = Some b ∧ biomeColors b = Some cs ∧
    c ∈ cs ∧ biomeColor p = colorCode c.
Proof.
  split.
  - intros ([b Hb] & c & Hc & Hp)%elem_of_patches_of_type.
    unfold colors_of in Hc. rewrite Hb in Hc. simpl in Hc.
    destruct (biomeColors b) as [cs|] eqn:Hcs; simpl in Hc;
      [|by apply elem_of_nil in Hc].
    by exists b, cs, c.
  - intros (b & cs & c & Hb & Hcs & Hc & Hp).
    unfold patches_of_type. rewrite list_elem_of_In, in_concat.
    exists (patches_of_biome biomes (biomeName p)).
    rewrite <-!list_elem_of_In. split.
    + apply list_elem_of_fmap. exists (biomeName p). split; [done|].
      apply elem_of_sorted_keys. eauto.
    + unfold patches_of_biome, colors_of. rewrite Hb. simpl. rewrite Hcs. simpl.
      apply list_elem_of_fmap. exists c. split; [|done].
      destruct p as [n col]. simpl in *. by rewrite Hp.
Qed.

(** X9. The extraction loses and invents nothing: the patches of a type are
    exactly the colours of the biomes grouped under it, each under the name
    of its biome and normalised, and a type has an entry in [biomePatches]
    exactly when it has a patch. *)
Theorem patches_are_the_colors m bp t :
  extract m = Ok bp →
  (is_Some (bp !! t) ↔ ∃ p, p ∈ patches_at bp t) ∧
  (∀ p, p ∈ patches_at bp t ↔
     ∃ biomes b cs c, m !! t = Some biomes ∧
       biomes !! biomeName p = Some b ∧ biomeColors b = Some cs ∧
       c ∈ cs ∧ biomeColor p = colorCode c).
Proof.
  intros Hex. split.
  - unfold patches_at. split.
    + intros [ps Hps]. pose proof (extract_nonempty m bp Hex t ps Hps) as Hne.
      simpl in Hne. rewrite Hps. simpl. destruct ps as [|p ps]; [done|].
      exists p. by left.
    + intros [p Hp]. destruct (bp !! t); [done|]. by apply elem_of_nil in Hp.
  - intros p. rewrite (extract_patches_at m bp t Hex).
    rewrite elem_of_patches_of_type_iff. split.
    + intros (b & cs & c & Hb & ?). destruct (m !! t) as [biomes|]; [|done].
      by exists biomes, b, cs, c.
    + intros (biomes & b & cs & c & -> & ?). by exists b, cs, c.
Qed.

End ExtractorMore.

(* ===================================================================== *)
(** * Further properties: the layout                                      *)
(* ===================================================================== *)

Section LayoutMore.

Variable ceil_pow_third : Z → Z.
Variable getsize : string → Z * Z.

Implicit Types (bp : gmap string (list patch)).

Local Abbreviation plan := (plan ceil_pow_third getsize).
Local Abbreviation measure_patch := (measure_patch getsize).
Local Abbreviation measure_patches := (measure_patches getsize).

Lemma plan_nonempty bp L : plan bp = Ok L → bp ≠ ∅.
Proof. intros HL ->. by rewrite plan_empty in HL. Qed.

Lemma sumZ_ge_length {A} (f : A → Z) (l : list A) :
  (∀ x, x ∈ l → 1 ≤ f x) → Z.of_nat (length l) ≤ sumZ (f <$> l).
Proof.
  unfold sumZ. induction l as [|x l IH]; intros Hf; [done|].
  rewrite fmap_cons. cbn [foldr length]. rewrite Nat2Z.inj_succ.
  pose proof (Hf x ltac:(left)).
  assert (Z.of_nat (length l) ≤ foldr Z.add 0 (f <$> l))
    by (apply IH; intros y Hy; apply Hf; by right).
  lia.
Qed.

Lemma sumZ_le {A} (f g : A → Z) (l : list A) :
  (∀ x, x ∈ l → f x ≤ g x) → sumZ (f <$> l) ≤ sumZ (g <$> l).
Proof.
  unfold sumZ. induction l as [|x l IH]; intros Hf; [done|].
  rewrite !fmap_cons. cbn [foldr].
  pose proof (Hf x ltac:(left)).
  assert (foldr Z.add 0 (f <$> l) ≤ foldr Z.add 0 (g <$> l))
    by (apply IH; intros y Hy; apply Hf; by right).
  lia.
Qed.

Section Grid.

Hypothesis ceil_pow_third_pos : ∀ n, 1 ≤ n → 1 ≤ ceil_pow_third n.

Lemma plan_grid m bp L :
  extract m = Ok bp → plan bp = Ok L →
  1 ≤ columns L ≤ maxPatches L ∧
  (∀ t ps, bp !! t = Some ps →
     ∃ k, biomeTypeRows L !! t = Some k ∧ 1 ≤ k ∧
       (k - 1) * columns L < len ps ≤ k * columns L) ∧
  (∀ t, bp !! t = None → biomeTypeRows L !! t = None) ∧
  Z.of_nat (base.size bp) ≤ rows L ≤ sumZ (len <$> values bp).
Proof.
  intros Hex HL.
  destruct (plan_ok ceil_pow_third getsize ceil_pow_third_pos bp
              (plan_nonempty bp L HL) (extract_nonempty m bp Hex))
    as (L' & HL' & Hlen & (t0 & ps0 & Ht0 & Hmax) & Hw & Hc & Hr & Hrows & _).
  rewrite HL in HL'. injection HL' as <-.
  assert (1 ≤ maxPatches L) as HM by (pose proof (Hlen t0 ps0 Ht0); lia).
  pose proof (ceil_pow_third_pos _ HM) as Hpos.
  assert (1 ≤ columns L ≤ maxPatches L) as Hcols by lia.
  assert (∀ ps, ps ∈ values bp →
            1 ≤ ceil_div (len ps) (columns L) ≤ len ps) as Hrow.
  { intros ps [t Ht]%elem_of_values.
    pose proof (Hlen t ps Ht). pose proof (ceil_div_spec (len ps) (columns L)).
    nia. }
  split; [done|]. split; [|split].
  - intros t ps Ht. exists (ceil_div (len ps) (columns L)).
    rewrite Hr, lookup_fmap, Ht. split; [done|].
    pose proof (Hlen t ps Ht). pose proof (ceil_div_spec (len ps) (columns L)).
    split; nia.
  - intros t Ht. by rewrite Hr, lookup_fmap, Ht.
  - rewrite Hrows. split.
    + rewrite <-length_map_to_list.
      replace (length (map_to_list bp)) with (length (values bp))
        by (unfold values, iteritems; by rewrite length_fmap).
      apply sumZ_ge_length. intros ps Hps. by apply Hrow.
    + apply sumZ_le. intros ps Hps. by apply Hrow.
Qed.

(** X10. The grid has room for every patch and no spare row: there is at
    least one column and no more than the longest type needs; every type
    gets at least one row, enough rows for all its patches, and its last row
    is not empty; and the canvas has at least one row for each type and at
    most one for each patch. *)
Theorem grid_holds_every_patch m bp L :
  extract m = Ok bp → plan bp = Ok L →
  1 ≤ columns L ≤ maxPatches L ∧
  (∀ t ps, bp !! t = Some ps →
     ∃ k, biomeTypeRows L !! t = Some k ∧ 1 ≤ k ∧
       (k - 1) * columns L < len ps ≤ k * columns L) ∧
  (∀ t, bp !! t = None → biomeTypeRows L !! t = None) ∧
  Z.of_nat (base.size bp) ≤ rows L ≤ sumZ (len <$> values bp).
Proof. apply plan_grid. Qed.

End Grid.

Lemma measure_patch_bounds pad acc p :
  acc.1 ≤ (measure_patch pad acc p).1 ∧ acc.2 ≤ (measure_patch pad acc p).2 ∧
  (getsize (biomeName p)).1 + 2 * pad ≤ (measure_patch pad acc p).1 ∧
  patchTextRows * (getsize (biomeName p)).2 + 2 * pad
    ≤ (measure_patch pad acc p).2.
Proof. destruct acc as [w h]. unfold Ewgpal.measure_patch. simpl. lia. Qed.

Lemma foldl_measure_patch pad ps : ∀ acc,
  acc.1 ≤ (foldl (measure_patch pad) acc ps).1 ∧
  acc.2 ≤ (foldl (measure_patch pad) acc ps).2 ∧
  ∀ p, p ∈ ps →
    (getsize (biomeName p)).1 + 2 * pad ≤ (foldl (measure_patch pad) acc ps).1 ∧
    patchTextRows * (getsize (biomeName p)).2 + 2 * pad
      ≤ (foldl (measure_patch pad) acc ps).2.
Proof.
  induction ps as [|p0 ps IH]; intros acc; simpl.
  - split; [done|]. split; [done|]. by intros ? ?%elem_of_nil.
  - destruct (IH (measure_patch pad acc p0)) as (Hw & Hh & Hall).
    destruct (measure_patch_bounds pad acc p0) as (? & ? & ? & ?).
    split; [lia|]. split; [lia|].
    intros p [->|Hp]%elem_of_cons; [lia|by apply Hall].
Qed.

Lemma foldl_measure_patches pad (pss : list (list patch)) : ∀ acc,
  let r := foldl (λ acc' ps, foldl (measure_patch pad) acc' ps) acc pss in
  acc.1 ≤ r.1 ∧ acc.2 ≤ r.2 ∧
  ∀ ps p, ps ∈ pss → p ∈ ps →
    (getsize (biomeName p)).1 + 2 * pad ≤ r.1 ∧
    patchTextRows * (getsize (biomeName p)).2 + 2 * pad ≤ r.2.
Proof.
  induction pss as [|ps0 pss IH]; intros acc; simpl.
  - split; [done|]. split; [done|]. by intros ? ? ?%elem_of_nil.
  - destruct (IH (foldl (measure_patch pad) acc ps0)) as (Hw & Hh & Hall).
    destruct (foldl_measure_patch pad ps0 acc) as (? & ? & Hall0).
    split; [lia|]. split; [lia|].
    intros ps p [->|Hps]%elem_of_cons Hp; [|by eapply Hall].
    destruct (Hall0 p Hp). lia.
Qed.

Lemma plan_cells bp L :
  plan bp = Ok L →
  patchPadding L = (getsize "   ").1 ∧
  0 ≤ patchWidth L ∧ 0 ≤ patchHeight L ∧
  (∀ t ps p, bp !! t = Some ps → p ∈ ps →
     (getsize (biomeName p)).1 + 2 * patchPadding L ≤ patchWidth L ∧
     7 * (getsize (biomeName p)).2 + 2 * patchPadding L ≤ patchHeight L) ∧
  (∀ t, is_Some (bp !! t) →
     (getsize t).1 + 2 * patchPadding L ≤ firstColumnWidth L) ∧
  (∃ t, is_Some (bp !! t) ∧
     (getsize t).1 + 2 * patchPadding L = firstColumnWidth L).
Proof.
  unfold Ewgpal.plan. intros HL.
  destruct (max_ (len <$> values bp)) as [M|]; simpl in HL; [|done].
  destruct (count_rows _ bp) as [counted|]; simpl in HL; [|done].
  destruct (max_ ((λ t, (getsize t).1) <$> keys bp)) as [W|] eqn:HW;
    simpl in HL; [|done].
  injection HL as <-. simpl.
  destruct (foldl_measure_patches (getsize "   ").1 (values bp) (0, 0))
    as (Hw & Hh & Hall).
  destruct (max_ok ((λ t, (getsize t).1) <$> keys bp))
    as (W' & HW' & HWin & HWmax).
  { intros Hnil. by rewrite Hnil in HW. }
  rewrite HW in HW'. injection HW' as <-.
  split; [done|]. split; [done|]. split; [done|]. split; [|split].
  - intros t ps p Ht Hp. apply (Hall ps p); [|done].
    apply elem_of_values. eauto.
  - intros t Ht%elem_of_keys.
    assert ((getsize t).1 ≤ W) by (apply HWmax, list_elem_of_fmap; eauto). lia.
  - apply list_elem_of_fmap in HWin as (t & -> & Ht%elem_of_keys).
    exists t. split; [done|lia].
Qed.

(** X11. The cells are large enough for their first line of text: a patch
    is at least as wide as every biome name plus the padding on both sides
    and as high as seven lines of it plus the padding, neither is negative,
    and the first column is exactly as wide as the widest type name plus the
    padding on both sides. *)
Theorem cells_fit_the_names bp L :
  plan bp = Ok L →
  patchPadding L = (getsize "   ").1 ∧
  0 ≤ patchWidth L ∧ 0 ≤ patchHeight L ∧
  (∀ t ps p, bp !! t = Some ps → p ∈ ps →
     (getsize (biomeName p)).1 + 2 * patchPadding L ≤ patchWidth L ∧
     7 * (getsize (biomeName p)).2 + 2 * patchPadding L ≤ patchHeight L) ∧
  (∀ t, is_Some (bp !! t) →
     (getsize t).1 + 2 * patchPadding L ≤ firstColumnWidth L) ∧
  (∃ t, is_Some (bp !! t) ∧
     (getsize t).1 + 2 * patchPadding L = firstColumnWidth L).
Proof. apply plan_cells. Qed.

End LayoutMore.

(* ===================================================================== *)
(** * Further properties: the renderer                                    *)
(* ===================================================================== *)

Section RenderMore.

Variable ceil_pow_third : Z → Z.
Variable getsize : string → Z * Z.
Variable textsize : string → Z * Z.
Variable getrgb : string → result (Z * Z * Z).

Implicit Types (bp : gmap string (list patch)) (ops : list draw_op).

Local Abbreviation plan := (plan ceil_pow_third getsize).
Local Abbreviation render := (render getsize textsize getrgb).
Local Abbreviation draw_type := (draw_type getsize textsize getrgb).
Local Abbreviation draw_row := (draw_row getsize textsize getrgb).
Local Abbreviation draw_cells := (draw_cells textsize getrgb).
Local Abbreviation draw_patch := (draw_patch textsize getrgb).
Local Abbreviation draw_lines := (draw_lines textsize).
Local Abbreviation draw_label := (draw_label getsize).

(** The colour that [getrgb] finds for a patch. *)
Local Abbreviation resolved :=
  (Forall2 (λ (p : patch) (rgb : Z * Z * Z), getrgb (biomeColor p) = Ok rgb)).

Lemma patch_inks_app ops1 ops2 :
  patch_inks (ops1 ++ ops2) = patch_inks ops1 ++ patch_inks ops2.
Proof. apply omap_app. Qed.

Lemma label_tops_app ops1 ops2 :
  label_tops (ops1 ++ ops2) = label_tops ops1 ++ label_tops ops2.
Proof. apply omap_app. Qed.

Lemma draw_lines_text L c rgb gap lines : ∀ y,
  Forall (λ op, ∃ xy s fill, op = text xy s fill)
    (draw_lines L c rgb gap lines y).
Proof.
  induction lines as [|line lines IH]; intros y; simpl; [done|].
  destruct (textsize line) as [lineW lineH]. constructor; [eauto|apply IH].
Qed.

Lemma texts_not_seen L row ops :
  Forall (λ op, ∃ xy s fill, op = text xy s fill) ops →
  patch_inks ops = [] ∧ label_tops ops = [] ∧ Forall (in_band L row) ops.
Proof.
  induction 1 as [|op ops (xy & s & fill & ->) _ (IH1 & IH2 & IH3)]; [done|].
  change (text xy s fill :: ops) with ([text xy s fill] ++ ops).
  rewrite patch_inks_app, label_tops_app, IH1, IH2.
  split; [done|]. split; [done|]. by constructor.
Qed.

(** A patch cell: as [getrgb] goes, a rectangle in the colour found and
    some text, or the exception of [getrgb]. *)
Lemma draw_patch_spec L row c p :
  match getrgb (biomeColor p) with
  | Ok rgb =>
      ∃ texts,
        draw_patch L row c p =
          Ok (rectangle (firstColumnWidth L + c * patchWidth L,
                         row * patchHeight L,
                         firstColumnWidth L + (c + 1) * patchWidth L,
                         (row + 1) * patchHeight L) (RGB rgb) "#000000"
              :: texts) ∧
        Forall (λ op, ∃ xy s fill, op = text xy s fill) texts
  | Raise e => draw_patch L row c p = Raise e
  end.
Proof.
  unfold Ewgpal.draw_patch. destruct (getrgb (biomeColor p)) as [rgb|e]; [|done].
  eexists. split; [reflexivity|]. apply draw_lines_text.
Qed.

Lemma sumZ_nonneg {A} (f : A → Z) (l : list A) :
  (∀ x, x ∈ l → 0 ≤ f x) → 0 ≤ sumZ (f <$> l).
Proof.
  unfold sumZ. induction l as [|x l IH]; intros Hf; [done|].
  rewrite fmap_cons. cbn [foldr].
  pose proof (Hf x ltac:(left)).
  assert (0 ≤ foldr Z.add 0 (f <$> l))
    by (apply IH; intros y Hy; apply Hf; by right).
  lia.
Qed.

Lemma getindex_nat (patches : list patch) (i : nat) p :
  patches !! i = Some p → getindex patches (Z.of_nat i) = Ok p.
Proof.
  intros Hp. unfold getindex.
  destruct (decide (Z.of_nat i < 0)); [lia|].
  destruct (decide (0 ≤ Z.of_nat i)); [|lia].
  by rewrite Nat2Z.id, Hp.
Qed.

Section Geometry.

Variable L : layout.
Hypothesis columns_nonneg : 0 ≤ columns L.

(** The cells of an image row, from the column [c0] on: the patches from
    the index of that column on, at most [n] of them. *)
Lemma draw_cells_spec row r patches (n : nat) : ∀ c0 (i : nat),
  0 ≤ c0 → c0 + Z.of_nat n ≤ columns L → r * columns L + c0 = Z.of_nat i →
  match draw_cells L row r patches (seqZ c0 (Z.of_nat n)) [] with
  | Ok cells =>
      resolved (take n (drop i patches)) (patch_inks cells) ∧
      label_tops cells = [] ∧ Forall (in_band L row) cells
  | Raise e =>
      ∃ p, p ∈ take n (drop i patches) ∧ getrgb (biomeColor p) = Raise e
  end.
Proof.
  induction n as [|n IH]; intros c0 i Hc0 Hcols Hi.
  - by rewrite seqZ_nil by done.
  - rewrite seqZ_cons by lia.
    replace (Z.pred (Z.of_nat (S n))) with (Z.of_nat n) by lia.
    cbn [Ewgpal.draw_cells]. rewrite Hi.
    destruct (decide (len patches ≤ Z.of_nat i)) as [Hlen|Hlen].
    { rewrite drop_ge by (unfold len in Hlen; lia). by rewrite take_nil. }
    destruct (lookup_lt_is_Some_2 patches i) as [p Hp];
      [unfold len in Hlen; lia|].
    rewrite (getindex_nat patches i p Hp). simpl.
    rewrite (drop_S patches p i Hp). simpl.
    pose proof (draw_patch_spec L row c0 p) as Hcell.
    destruct (getrgb (biomeColor p)) as [rgb|e] eqn:Hrgb.
    + destruct Hcell as (texts & -> & Htexts). simpl.
      rewrite draw_cells_append.
      specialize (IH (Z.succ c0) (S i)).
      destruct (draw_cells L row r patches (seqZ (Z.succ c0) (Z.of_nat n)) [])
        as [cells|e]; simpl.
      * destruct IH as (IH1 & IH2 & IH3); [lia..|].
        destruct (texts_not_seen L row texts Htexts) as (Ht1 & Ht2 & Ht3).
        rewrite (app_comm_cons texts cells).
        change (rectangle ?xy ?ink ?o :: texts ++ cells)
          with ([rectangle xy ink o] ++ texts ++ cells).
        rewrite !patch_inks_app, !label_tops_app, Ht1, Ht2, IH2. simpl.
        split; [by constructor|]. split; [done|].
        constructor; [|by apply Forall_app].
        simpl. split; [done|]. split; [done|]. right. exists c0.
        split; [lia|done].
      * destruct IH as (p' & Hp' & He); [lia..|]. exists p'.
        split; [by right|done].
    + rewrite Hcell. simpl. exists p. split; [by left|done].
Qed.

Lemma chunks_split {A} (l : list A) (k R0 C : nat) :
  take (S k * C) (drop (R0 * C) l) =
  take C (drop (R0 * C) l) ++ take (k * C) (drop (S R0 * C) l).
Proof.
  change (S k * C)%nat with (C + k * C)%nat.
  rewrite <-(take_take_drop (drop (R0 * C) l) C (k * C)), drop_drop.
  do 3 f_equal. simpl. lia.
Qed.

Lemma draw_label_seen row t :
  patch_inks (draw_label L row t) = [] ∧
  label_tops (draw_label L row t) = [row * patchHeight L] ∧
  Forall (in_band L row) (draw_label L row t).
Proof.
  split; [done|]. split; [done|]. unfold Ewgpal.draw_label.
  constructor; [|by repeat constructor].
  simpl. split; [done|]. split; [done|]. by left.
Qed.

Lemma draw_row_nil t patches row r :
  draw_row L patches t (row, []) r =
  (λ cells, (row + 1, draw_label L row t ++ cells))
    <$> draw_cells L row r patches (seqZ 0 (Z.of_nat (Z.to_nat (columns L)))) [].
Proof.
  unfold Ewgpal.draw_row, range. rewrite Z2Nat.id by done. simpl.
  rewrite draw_cells_append. by destruct (draw_cells L row r patches _ []).
Qed.

(** The image rows of a type, from its row [R0] on: one label each, and the
    patches of the type in chunks of [columns]. *)
Lemma draw_rows_spec t patches (k : nat) : ∀ (R0 : nat) row,
  match for_ (seqZ (Z.of_nat R0) (Z.of_nat k)) (draw_row L patches t)
          (row, []) with
  | Ok st =>
      st.1 = row + Z.of_nat k ∧
      resolved (take (k * Z.to_nat (columns L))
                  (drop (R0 * Z.to_nat (columns L)) patches))
        (patch_inks st.2) ∧
      label_tops st.2 = (λ j, j * patchHeight L) <$> seqZ row (Z.of_nat k) ∧
      Forall (λ op, ∃ j, row ≤ j < row + Z.of_nat k ∧ in_band L j op) st.2
  | Raise e =>
      ∃ p, p ∈ take (k * Z.to_nat (columns L))
                 (drop (R0 * Z.to_nat (columns L)) patches) ∧
        getrgb (biomeColor p) = Raise e
  end.
Proof.
  induction k as [|k IH]; intros R0 row.
  - rewrite !seqZ_nil by done. cbn [for_]. simpl.
    split; [lia|]. by split; [constructor|].
  - rewrite (seqZ_cons (Z.of_nat R0)) by lia.
    replace (Z.pred (Z.of_nat (S k))) with (Z.of_nat k) by lia.
    replace (Z.succ (Z.of_nat R0)) with (Z.of_nat (S R0)) by lia.
    cbn [for_]. rewrite draw_row_nil, chunks_split.
    pose proof (draw_cells_spec row (Z.of_nat R0) patches
                  (Z.to_nat (columns L)) 0 (R0 * Z.to_nat (columns L))%nat)
      as Hcells.
    destruct (draw_cells L row (Z.of_nat R0) patches _ []) as [cells|e];
      cbn [fmap result_fmap mbind result_bind fst snd].
    + destruct Hcells as (Hc1 & Hc2 & Hc3); [lia..|].
      rewrite (for_appending _ _ (draw_row_appending _ _ _ L patches t)).
      specialize (IH (S R0) (row + 1)).
      destruct (for_ _ _ (row + 1, [])) as [[row' ops']|e];
        cbn [fmap result_fmap fst snd] in *.
      * destruct IH as (-> & IH2 & IH3 & IH4).
        destruct (draw_label_seen row t) as (Hl1 & Hl2 & Hl3).
        rewrite !patch_inks_app, !label_tops_app, Hl1, Hl2, Hc2, IH3.
        split; [lia|]. split; [by apply Forall2_app|]. split.
        { rewrite (seqZ_cons row) by lia.
          replace (Z.succ row) with (row + 1) by lia.
          by replace (Z.pred (Z.of_nat (S k))) with (Z.of_nat k) by lia. }
        rewrite !Forall_app. split; [split|].
        -- eapply Forall_impl; [exact Hl3|]. intros op ?. exists row.
           split; [lia|done].
        -- eapply Forall_impl; [exact Hc3|]. intros op ?. exists row.
           split; [lia|done].
        -- eapply Forall_impl; [exact IH4|]. intros op (j & ? & ?). exists j.
           split; [lia|done].
      * destruct IH as (p & Hp & He). exists p. split; [|done].
        apply elem_of_app. by right.
    + destruct Hcells as (p & Hp & He); [lia..|]. exists p. split; [|done].
      apply elem_of_app. by left.
Qed.

(** The block of a type that has room for its patches. *)
Lemma draw_type_spec bp t row kz :
  biomeTypeRows L !! t = Some kz → 0 ≤ kz →
  len (patches_at bp t) ≤ kz * columns L →
  match draw_type L bp (row, []) t with
  | Ok st =>
      st.1 = row + kz ∧
      resolved (patches_at bp t) (patch_inks st.2) ∧
      label_tops st.2 = (λ j, j * patchHeight L) <$> seqZ row kz ∧
      Forall (λ op, ∃ j, row ≤ j < row + kz ∧ in_band L j op) st.2
  | Raise e => ∃ p, p ∈ patches_at bp t ∧ getrgb (biomeColor p) = Raise e
  end.
Proof.
  intros Hk Hkz Hroom. unfold Ewgpal.draw_type, getitem. rewrite Hk. simpl.
  pose proof (draw_rows_spec t (patches_at bp t) (Z.to_nat kz) 0 row) as Hrows.
  unfold range. change (Z.of_nat 0) with 0 in Hrows.
  rewrite Z2Nat.id in Hrows by done.
  rewrite drop_0, take_ge in Hrows; [done|].
  unfold len in Hroom. nia.
Qed.

(** The blocks of a list of types, each of which has room for its patches. *)
Lemma draw_types_spec bp ts : ∀ row,
  (∀ t, t ∈ ts → ∃ kz, biomeTypeRows L !! t = Some kz ∧ 0 ≤ kz ∧
                   len (patches_at bp t) ≤ kz * columns L) →
  match for_ ts (draw_type L bp) (row, []) with
  | Ok st =>
      st.1 = row + sumZ (rows_of L <$> ts) ∧
      resolved (concat (patches_at bp <$> ts)) (patch_inks st.2) ∧
      label_tops st.2 =
        (λ j, j * patchHeight L) <$> seqZ row (sumZ (rows_of L <$> ts)) ∧
      Forall (λ op, ∃ j, row ≤ j < row + sumZ (rows_of L <$> ts)
                      ∧ in_band L j op) st.2
  | Raise e =>
      ∃ p, p ∈ concat (patches_at bp <$> ts) ∧ getrgb (biomeColor p) = Raise e
  end.
Proof.
  induction ts as [|t ts IH]; intros row Hroom.
  - cbn [for_]. unfold sumZ. simpl. split; [lia|]. by split; [constructor|].
  - destruct (Hroom t) as (kz & Hk & Hkz & Hlen); [by left|].
    assert (0 ≤ sumZ (rows_of L <$> ts)) as Hsum.
    { apply sumZ_nonneg. intros t' Ht'.
      destruct (Hroom t') as (kz' & Hk' & ? & _); [by right|].
      unfold rows_of. by rewrite Hk'. }
    replace (sumZ (rows_of L <$> t :: ts)) with (kz + sumZ (rows_of L <$> ts))
      by (rewrite fmap_cons; unfold sumZ, rows_of; simpl; by rewrite Hk).
    rewrite fmap_cons. cbn [for_ concat].
    pose proof (draw_type_spec bp t row kz Hk Hkz Hlen) as Ht.
    destruct (draw_type L bp (row, []) t) as [[row1 ops1]|e];
      cbn [fmap result_fmap mbind result_bind fst snd] in *.
    + destruct Ht as (-> & Ht2 & Ht3 & Ht4).
      rewrite (for_appending _ _ (draw_type_appending _ _ _ L bp)).
      specialize (IH (row + kz)).
      destruct (for_ ts _ (row + kz, [])) as [[row2 ops2]|e];
        cbn [fmap result_fmap fst snd] in *.
      * destruct IH as (-> & IH2 & IH3 & IH4);
          [intros t' Ht'; apply Hroom; by right|].
        rewrite !patch_inks_app, !label_tops_app, Ht3, IH3.
        split; [lia|]. split; [by apply Forall2_app|].
        split; [by rewrite seqZ_app, fmap_app by done|].
        rewrite Forall_app. split.
        -- eapply Forall_impl; [exact Ht4|]. intros op (j & ? & ?). exists j.
           split; [lia|done].
        -- eapply Forall_impl; [exact IH4|]. intros op (j & ? & ?). exists j.
           split; [lia|done].
      * destruct IH as (p & Hp & He);
          [intros t' Ht'; apply Hroom; by right|].
        exists p. split; [|done]. apply elem_of_app. by right.
    + destruct Ht as (p & Hp & He). exists p. split; [|done].
      apply elem_of_app. by left.
Qed.

(** The same loops, seen without the coordinates. *)
Lemma draw_lines_view c rgb gap lines : ∀ y,
  view_of <$> draw_lines L c rgb gap lines y =
  (λ s, Caption s (contrastingColor rgb)) <$> lines.
Proof.
  induction lines as [|line lines IH]; intros y; [done|].
  cbn [Ewgpal.draw_lines]. destruct (textsize line) as [lineW lineH].
  by rewrite !fmap_cons, IH.
Qed.

Lemma draw_patch_view row c p :
  match draw_patch L row c p with
  | Ok cell => view_of <$> cell = patch_view getrgb p
  | Raise _ => True
  end.
Proof.
  unfold Ewgpal.draw_patch, patch_view.
  destruct (getrgb (biomeColor p)) as [rgb|e]; [|done].
  cbn [mbind result_bind mret result_ret].
  by rewrite fmap_cons, draw_lines_view.
Qed.

Lemma draw_cells_view row r patches (n : nat) : ∀ c0 (i : nat),
  0 ≤ c0 → r * columns L + c0 = Z.of_nat i →
  match draw_cells L row r patches (seqZ c0 (Z.of_nat n)) [] with
  | Ok cells =>
      view_of <$> cells =
      concat (patch_view getrgb <$> take n (drop i patches))
  | Raise _ => True
  end.
Proof.
  induction n as [|n IH]; intros c0 i Hc0 Hi.
  - by rewrite seqZ_nil by done.
  - rewrite seqZ_cons by lia.
    replace (Z.pred (Z.of_nat (S n))) with (Z.of_nat n) by lia.
    cbn [Ewgpal.draw_cells]. rewrite Hi.
    destruct (decide (len patches ≤ Z.of_nat i)) as [Hlen|Hlen].
    { rewrite drop_ge by (unfold len in Hlen; lia). by rewrite take_nil. }
    destruct (lookup_lt_is_Some_2 patches i) as [p Hp];
      [unfold len in Hlen; lia|].
    rewrite (getindex_nat patches i p Hp). simpl.
    rewrite (drop_S patches p i Hp). simpl.
    pose proof (draw_patch_view row c0 p) as Hcell.
    destruct (draw_patch L row c0 p) as [cell|e]; [|done]. simpl.
    rewrite draw_cells_append.
    specialize (IH (Z.succ c0) (S i)).
    destruct (draw_cells L row r patches (seqZ (Z.succ c0) (Z.of_nat n)) [])
      as [cells|e]; simpl; [|done].
    by rewrite fmap_app, Hcell, IH by lia.
Qed.

Lemma draw_rows_view t patches (k : nat) : ∀ (R0 : nat) row,
  match for_ (seqZ (Z.of_nat R0) (Z.of_nat k)) (draw_row L patches t)
          (row, []) with
  | Ok st =>
      view_of <$> st.2 =
      concat (row_view getrgb (Z.to_nat (columns L)) t patches <$> seq R0 k)
  | Raise _ => True
  end.
Proof.
  induction k as [|k IH]; intros R0 row.
  - by rewrite seqZ_nil by done.
  - rewrite (seqZ_cons (Z.of_nat R0)) by lia.
    replace (Z.pred (Z.of_nat (S k))) with (Z.of_nat k) by lia.
    replace (Z.succ (Z.of_nat R0)) with (Z.of_nat (S R0)) by lia.
    cbn [for_]. rewrite draw_row_nil.
    pose proof (draw_cells_view row (Z.of_nat R0) patches
                  (Z.to_nat (columns L)) 0 (R0 * Z.to_nat (columns L))%nat)
      as Hcells.
    destruct (draw_cells L row (Z.of_nat R0) patches _ []) as [cells|e];
      cbn [fmap result_fmap mbind result_bind fst snd]; [|done].
    rewrite (for_appending _ _ (draw_row_appending _ _ _ L patches t)).
    specialize (IH (S R0) (row + 1)).
    destruct (for_ _ _ (row + 1, [])) as [[row' ops']|e];
      cbn [fmap result_fmap fst snd] in *; [|done].
    rewrite !fmap_app, Hcells, IH by lia.
    cbn [seq]. rewrite fmap_cons. cbn [concat]. unfold row_view at 2.
    by rewrite <-!app_assoc.
Qed.

Lemma draw_type_view bp t row :
  match draw_type L bp (row, []) t with
  | Ok st => view_of <$> st.2 = type_view getrgb L bp t
  | Raise _ => True
  end.
Proof.
  unfold Ewgpal.draw_type, getitem, type_view, rows_of.
  destruct (biomeTypeRows L !! t) as [kz|]; simpl; [|done].
  destruct (decide (0 ≤ kz)) as [Hkz|Hkz].
  - pose proof (draw_rows_view t (patches_at bp t) (Z.to_nat kz) 0 row)
      as Hrows.
    unfold range. change (Z.of_nat 0) with 0 in Hrows.
    by rewrite Z2Nat.id in Hrows by done.
  - unfold range. rewrite seqZ_nil by lia. cbn [for_].
    by replace (Z.to_nat kz) with 0%nat by lia.
Qed.

Lemma draw_types_view bp ts : ∀ row,
  match for_ ts (draw_type L bp) (row, []) with
  | Ok st => view_of <$> st.2 = concat (type_view getrgb L bp <$> ts)
  | Raise _ => True
  end.
Proof.
  induction ts as [|t ts IH]; intros row; [done|].
  rewrite fmap_cons. cbn [for_ concat].
  pose proof (draw_type_view bp t row) as Ht.
  destruct (draw_type L bp (row, []) t) as [[row1 ops1]|e];
    cbn [fmap result_fmap mbind result_bind fst snd] in *; [|done].
  rewrite (for_appending _ _ (draw_type_appending _ _ _ L bp)).
  specialize (IH row1).
  destruct (for_ ts _ (row1, [])) as [[row2 ops2]|e];
    cbn [fmap result_fmap fst snd] in *; [|done].
  by rewrite fmap_app, Ht, IH.
Qed.

End Geometry.

Lemma sumZ_perm l1 l2 : l1 ≡ₚ l2 → sumZ l1 = sumZ l2.
Proof. unfold sumZ. induction 1; simpl; lia. Qed.

Lemma render_cases L bp :
  match for_ (sorted (keys bp)) (draw_type L bp) (0, []) with
  | Ok st =>
      render L bp = Ok {| mode := "RGB";
                          size := (imageWidth L, imageHeight L);
                          color := "#404040";
                          drawn := st.2 |}
  | Raise e => render L bp = Raise e
  end.
Proof. unfold Ewgpal.render. by destruct (for_ _ _ _). Qed.

Section Run.

Hypothesis ceil_pow_third_pos : ∀ n, 1 ≤ n → 1 ≤ ceil_pow_third n.

(** What the renderer needs of the layout: every type of [biomePatches] has
    its rows, with room for its patches, and they add up to [rows]. *)
Lemma plan_room m bp L :
  extract m = Ok bp → plan bp = Ok L →
  0 ≤ columns L ∧
  (∀ t, t ∈ sorted (keys bp) →
     ∃ kz, biomeTypeRows L !! t = Some kz ∧ 0 ≤ kz ∧
       len (patches_at bp t) ≤ kz * columns L) ∧
  sumZ (rows_of L <$> sorted (keys bp)) = rows L.
Proof.
  intros Hex HL.
  destruct (plan_grid ceil_pow_third getsize ceil_pow_third_pos m bp L Hex HL)
    as (Hcols & Hroom & _).
  destruct (plan_ok ceil_pow_third getsize ceil_pow_third_pos bp
              (plan_nonempty _ _ bp L HL) (extract_nonempty m bp Hex))
    as (L' & HL' & _ & _ & _ & _ & Hr & Hrows & _).
  rewrite HL in HL'. injection HL' as <-.
  split; [lia|]. split.
  - intros t [ps Ht]%elem_of_sorted_keys.
    destruct (Hroom t ps Ht) as (k & Hk & ? & ?). exists k.
    unfold patches_at. rewrite Ht. simpl. split; [done|]. split; lia.
  - rewrite (sumZ_perm _ (rows_of L <$> keys bp)) by by rewrite sorted_perm.
    rewrite Hrows. f_equal. unfold keys, values.
    rewrite <-!list_fmap_compose. apply list_fmap_ext.
    intros i [t ps] Hi. simpl. unfold rows_of.
    apply list_elem_of_lookup_2, elem_of_map_to_list in Hi.
    by rewrite Hr, lookup_fmap, Hi.
Qed.

(** X12. When the image is rendered every patch is drawn exactly once: the
    filled cells, in the order in which they are drawn, carry the colours
    that [getrgb] finds for the patches, type after type in increasing order
    and, within a type, in the order of its patch list. *)
Theorem every_patch_is_drawn_once m bp L img :
  extract m = Ok bp → plan bp = Ok L → render L bp = Ok img →
  Forall2 (λ p rgb, getrgb (biomeColor p) = Ok rgb)
    (all_patches bp) (patch_inks (drawn img)) ∧
  length (patch_inks (drawn img)) = length (all_patches bp).
Proof.
  intros Hex HL Himg.
  destruct (plan_room m bp L Hex HL) as (Hcols & Hroom & _).
  pose proof (draw_types_spec L Hcols bp (sorted (keys bp)) 0 Hroom) as Hspec.
  pose proof (render_cases L bp) as Hrender.
  destruct (for_ _ _ _) as [st|e]; [|congruence].
  rewrite Himg in Hrender. injection Hrender as ->. simpl.
  destruct Hspec as (_ & Hinks & _). split; [done|].
  symmetry. by eapply Forall2_length.
Qed.

Lemma render_result m bp L :
  extract m = Ok bp → plan bp = Ok L →
  (is_Ok (render L bp) ↔
   Forall (λ p, is_Ok (getrgb (biomeColor p))) (all_patches bp)) ∧
  (∀ e, render L bp = Raise e →
     ∃ p, p ∈ all_patches bp ∧ getrgb (biomeColor p) = Raise e).
Proof.
  intros Hex HL.
  destruct (plan_room m bp L Hex HL) as (Hcols & Hroom & _).
  pose proof (draw_types_spec L Hcols bp (sorted (keys bp)) 0 Hroom) as Hspec.
  pose proof (render_cases L bp) as Hrender.
  destruct (for_ _ _ _) as [st|e0]; rewrite Hrender.
  - destruct Hspec as (_ & Hinks & _). split; [|done].
    split; [|by eexists]. intros _.
    eapply Forall2_Forall_l; [exact Hinks|].
    apply Forall_forall. intros rgb _ p Hp. by exists rgb.
  - destruct Hspec as (p & Hp & He). split.
    + split; [by intros [? ?]|]. rewrite Forall_forall. intros Hall.
      destruct (Hall p Hp) as [rgb Hrgb]. congruence.
    + intros e [= <-]. eauto.
Qed.

(** X13. With the layout of the script the renderer returns exactly when
    [getrgb] knows the colour of every patch; otherwise it raises what
    [getrgb] raises on one of the patches. No lookup of the row counts and
    no index into a patch list fails. *)
Theorem render_completes_iff m bp L :
  extract m = Ok bp → plan bp = Ok L →
  (is_Ok (render L bp) ↔
   Forall (λ p, is_Ok (getrgb (biomeColor p))) (all_patches bp)) ∧
  (∀ e, render L bp = Raise e →
     ∃ p, p ∈ all_patches bp ∧ getrgb (biomeColor p) = Raise e).
Proof. apply render_result. Qed.

(** X14. Every image row has its label cell and there are no others: the
    label cells are drawn from the top down, one at the height of each of
    the [rows] rows that the height of the canvas was computed from. *)
Theorem one_label_per_row m bp L img :
  extract m = Ok bp → plan bp = Ok L → render L bp = Ok img →
  label_tops (drawn img) = (λ j, j * patchHeight L) <$> seqZ 0 (rows L).
Proof.
  intros Hex HL Himg.
  destruct (plan_room m bp L Hex HL) as (Hcols & Hroom & Hrows).
  pose proof (draw_types_spec L Hcols bp (sorted (keys bp)) 0 Hroom) as Hspec.
  pose proof (render_cases L bp) as Hrender.
  destruct (for_ _ _ _) as [st|e]; [|congruence].
  rewrite Himg in Hrender. injection Hrender as ->. simpl.
  destruct Hspec as (_ & _ & Hlabels & _). by rewrite Hlabels, Hrows.
Qed.


(** X18. What the image shows, in the order of drawing: the types in
    increasing order, each with the rows that the layout gives it; every
    row begins with the grey label cell and the name of the type in white,
    and goes on with the next [columns] patches of the type, each a cell in
    its colour with three lines of text, the name of the biome, the colour
    code and the components of the colour, in the contrasting colour. *)
Theorem image_shows_every_patch m bp L img :
  extract m = Ok bp → plan bp = Ok L → render L bp = Ok img →
  view_of <$> drawn img = image_view getrgb L bp.
Proof.
  intros Hex HL Himg.
  destruct (plan_room m bp L Hex HL) as (Hcols & _ & _).
  pose proof (draw_types_view L Hcols bp (sorted (keys bp)) 0) as Hview.
  pose proof (render_cases L bp) as Hrender.
  destruct (for_ _ _ _) as [st|e]; [|congruence].
  rewrite Himg in Hrender. by injection Hrender as ->.
Qed.


End Run.

End RenderMore.

(* ===================================================================== *)
(** * Further properties: the base name of a file                         *)
(* ===================================================================== *)

Section BaseName.

Import OsPath.

Lemma append_nil (s : string) : "" +:+ s = s.
Proof. reflexivity. Qed.

Lemma append_cons (a : ascii) (s1 s2 : string) :
  String a s1 +:+ s2 = String a (s1 +:+ s2).
Proof. reflexivity. Qed.

Lemma append_assoc (s1 s2 s3 : string) : (s1 +:+ s2) +:+ s3 = s1 +:+ s2 +:+ s3.
Proof.
  induction s1 as [|a s1 IH]; [done|]. rewrite !append_cons. by f_equal.
Qed.

Lemma length_append (s1 s2 : string) :
  String.length (s1 +:+ s2) = (String.length s1 + String.length s2)%nat.
Proof.
  induction s1 as [|a s1 IH]; [done|]. rewrite append_cons. simpl. by f_equal.
Qed.

Lemma rfind_from_app c s1 : ∀ s2 i last,
  rfind_from c (s1 +:+ s2) i last =
  rfind_from c s2 (i + Z.of_nat (String.length s1)) (rfind_from c s1 i last).
Proof.
  induction s1 as [|a s1 IH]; intros s2 i last.
  - rewrite append_nil. simpl. by rewrite Z.add_0_r.
  - rewrite append_cons. cbn [rfind_from String.length]. rewrite IH. f_equal. lia.
Qed.

Lemma rfind_from_absent c s : ∀ i last,
  has_char c s = false → rfind_from c s i last = last.
Proof.
  induction s as [|a s IH]; intros i last; simpl; [done|].
  intros [-> Hs]%orb_false_iff. by apply IH.
Qed.

Lemma substring_all s : String.substring 0 (String.length s) s = s.
Proof. induction s as [|a s IH]; simpl; [done|]. by f_equal. Qed.

Lemma substring_prefix s1 s2 :
  String.substring 0 (String.length s1) (s1 +:+ s2) = s1.
Proof.
  induction s1 as [|a s1 IH]; [by destruct s2|].
  rewrite append_cons. simpl. by f_equal.
Qed.

Lemma substring_suffix s1 s2 :
  String.substring (String.length s1) (String.length s2) (s1 +:+ s2) = s2.
Proof.
  induction s1 as [|a s1 IH]; [apply substring_all|].
  rewrite append_cons. simpl. apply IH.
Qed.

Lemma slice_from_app s1 s2 :
  slice_from (Z.of_nat (String.length s1)) (s1 +:+ s2) = s2.
Proof.
  unfold slice_from. rewrite Nat2Z.id, length_append.
  replace (String.length s1 + String.length s2 - String.length s1)%nat
    with (String.length s2) by lia.
  apply substring_suffix.
Qed.

Lemma slice_to_app s1 s2 :
  slice_to (Z.of_nat (String.length s1)) (s1 +:+ s2) = s1.
Proof. unfold slice_to. rewrite Nat2Z.id. apply substring_prefix. Qed.

Lemma has_char_app c s1 s2 :
  has_char c (s1 +:+ s2) = has_char c s1 || has_char c s2.
Proof.
  induction s1 as [|a s1 IH]; [done|].
  rewrite append_cons. simpl. by rewrite IH, orb_assoc.
Qed.

(** [basename] drops everything up to the last slash. *)
Lemma basename_app dir name :
  has_char "/" name = false → basename (dir +:+ "/" +:+ name) = name.
Proof.
  intros Hname. unfold basename, rfind.
  rewrite rfind_from_app, append_cons, append_nil. cbn [rfind_from].
  rewrite Ascii.eqb_refl, rfind_from_absent by done.
  replace (String "/" name) with ("/" +:+ name) by done.
  rewrite <-(append_assoc dir "/" name).
  replace (0 + Z.of_nat (String.length dir) + 1)
    with (Z.of_nat (String.length (dir +:+ "/")))
    by (rewrite length_append; simpl; lia).
  apply slice_from_app.
Qed.

(** [splitext] splits before the last dot of a name that begins with
    another character. *)
Lemma splitext_app a stem ext :
  has_char "/" (String a stem) = false → a ≠ "."%char →
  has_char "." ext = false → has_char "/" ext = false →
  splitext (String a stem +:+ "." +:+ ext) = (String a stem, "." +:+ ext).
Proof.
  intros Hstem Ha Hext Hslash. unfold splitext, rfind.
  rewrite (rfind_from_app "/" (String a stem) ("." +:+ ext)).
  rewrite (rfind_from_app "." (String a stem) ("." +:+ ext)).
  rewrite (rfind_from_absent "/" (String a stem)) by done.
  assert (rfind_from "/" ("." +:+ ext)
            (0 + Z.of_nat (String.length (String a stem))) (-1) = -1) as ->.
  { rewrite append_cons, append_nil. cbn [rfind_from].
    by rewrite rfind_from_absent. }
  assert (rfind_from "." ("." +:+ ext)
            (0 + Z.of_nat (String.length (String a stem)))
            (rfind_from "." (String a stem) 0 (-1))
          = Z.of_nat (String.length (String a stem))) as ->.
  { rewrite append_cons, append_nil. cbn [rfind_from].
    rewrite Ascii.eqb_refl, rfind_from_absent by done. lia. }
  rewrite decide_True by lia.
  replace (Z.to_nat (Z.of_nat (String.length (String a stem)) - (-1 + 1)))
    with (S (String.length stem)) by (simpl; lia).
  change (Z.to_nat (-1 + 1)) with 0%nat.
  rewrite (append_cons a stem). cbn [has_non_dot String.get].
  apply Ascii.eqb_neq in Ha. rewrite Ha. rewrite <-(append_cons a stem).
  by rewrite slice_to_app, slice_from_app.
Qed.

(** X17. The base name under which a biome is filed is the name of its file
    without the directories and without the extension: for a path made of
    directories, a slash, a name that does not begin with a dot and has no
    slash, a dot and an extension without dot or slash, it is that name,
    whatever the directories are. Files of the same name in different
    directories get the same base name. *)
Theorem baseName_of_path (dir : string) (a : ascii) (stem ext : string)
    (c : parsed) :
  has_char "/" (String a stem) = false → a ≠ "."%char →
  has_char "." ext = false → has_char "/" ext = false →
  basename (dir +:+ "/" +:+ String a stem +:+ "." +:+ ext) =
    String a stem +:+ "." +:+ ext ∧
  splitext (String a stem +:+ "." +:+ ext) = (String a stem, "." +:+ ext) ∧
  baseName {| biomeFileName := dir +:+ "/" +:+ String a stem +:+ "." +:+ ext;
              contents := c |} = String a stem.
Proof.
  intros Hstem Ha Hext Hslash.
  assert (basename (dir +:+ "/" +:+ String a stem +:+ "." +:+ ext) =
          String a stem +:+ "." +:+ ext) as Hbase.
  { apply basename_app. rewrite has_char_app, Hstem.
    rewrite append_cons, append_nil. simpl. by rewrite Hslash. }
  split; [done|]. split; [by apply splitext_app|].
  unfold baseName. cbn [biomeFileName].
  by rewrite Hbase, splitext_app.
Qed.

End BaseName.


(* ===================================================================== *)
(** * The further properties on the sample inputs                         *)
(* ===================================================================== *)

Section SamplesMore.

Import Sample.

Local Ltac evaluate := vm_compute; reflexivity.

Lemma sample_plan : plan ceil_cbrt getsize patches = Ok sample_layout.
Proof. evaluate. Qed.

Lemma sample_render :
  render getsize getsize getrgb sample_layout patches = Ok sample_image.
Proof. evaluate. Qed.


Lemma maxSize_spec_witness :
  (∀ s, s ∈ [(3, 5); (4, 2)] → s.1 ≤ 4 ∧ s.2 ≤ 5) ∧
  (∃ s, s ∈ [(3, 5); (4, 2)] ∧ s.1 = 4) ∧
  (∃ s, s ∈ [(3, 5); (4, 2)] ∧ s.2 = 5).
Proof.
  apply (proj2 (proj2 (maxSize_spec [(3, 5); (4, 2)])) 4 5). evaluate.
Defined.

Lemma maxSize_compose_witness :
  maxSize ([(3, 5)] ++ [(4, 2); (1, 9)]) = Ok (Z.max 3 4, Z.max 5 9).
Proof.
  apply (proj1 (maxSize_compose [(3, 5)] [(4, 2); (1, 9)] (3, 5) (4, 9)
                  eq_refl eq_refl)).
Defined.

Lemma colorCode_eq_iff_witness : colorCode "2e8b57" = colorCode "#2e8b57".
Proof.
  apply (proj2 (proj1 (colorCode_eq_iff "2e8b57" "#2e8b57"))). reflexivity.
Defined.

Lemma contrastingColor_monotone_witness :
  contrastingColor (10, 20, 30) = "#ffffff".
Proof.
  apply (proj1 (contrastingColor_monotone 10 20 30 100 100 100
                  ltac:(lia) ltac:(lia) ltac:(lia) ltac:(lia) ltac:(lia)
                  ltac:(lia))).
  evaluate.
Defined.


Lemma load_last_wins_witness :
  ∃ m', load ([oak; birch] ++ [birch_enabled]) [] ∅ = ([], Ok m') ∧
    lookup2 m' "Forest" (baseName birch_enabled) =
      Some {| enabled := Some true; biomeType := Some "Forest";
              biomeColors := Some ["#9acd32"] |} ∧
    ∀ t' name', ¬ ("Forest" = t' ∧ baseName birch_enabled = name') →
      lookup2 m' t' name' =
      lookup2 {[ "Forest" :=
                   {[ "Oak" := {| enabled := Some true;
                                  biomeType := Some "Forest";
                                  biomeColors := Some ["2e8b57"] |};
                      "Birch" := {| enabled := Some false;
                                    biomeType := Some "Forest";
                                    biomeColors := Some ["#9acd32"] |} ]} ]}
        t' name'.
Proof.
  apply (load_last_wins [oak; birch]
           "world/settings/biomes/forests/Birch.json"
           {| enabled := Some true; biomeType := Some "Forest";
              biomeColors := Some ["#9acd32"] |} true "Forest" []).
  - evaluate.
  - reflexivity.
  - reflexivity.
Defined.

Lemma grouping_invariant_witness :
  ({[ "Dune" := {| enabled := Some true; biomeType := Some "Desert";
                   biomeColors := Some ["EDC9AF"; "#c2b280"; "f4a460"] |} ]}
     : gmap string biome) ≠ ∅ ∧
  ∀ name b,
    ({[ "Dune" := {| enabled := Some true; biomeType := Some "Desert";
                     biomeColors := Some ["EDC9AF"; "#c2b280"; "f4a460"] |} ]}
       : gmap string biome) !! name = Some b →
    biomeType b = Some "Desert" ∧ is_Some (enabled b) ∧
    ∃ file, file ∈ [oak; broken; birch; dune] ∧
      contents file = Loaded b ∧ baseName file = name.
Proof.
  apply (grouping_invariant [oak; broken; birch; dune] _ grouping sample_load
           "Desert").
  evaluate.
Defined.


Lemma patches_are_the_colors_witness :
  (is_Some (patches !! "Desert") ↔ ∃ p, p ∈ patches_at patches "Desert") ∧
  ∀ p, p ∈ patches_at patches "Desert" ↔
    ∃ biomes b cs c,
      grouping !! "Desert" = Some biomes ∧ biomes !! biomeName p = Some b ∧
      biomeColors b = Some cs ∧ c ∈ cs ∧ biomeColor p = colorCode c.
Proof.
  exact (patches_are_the_colors grouping patches "Desert" sample_extract).
Defined.

Lemma grid_holds_every_patch_witness :
  1 ≤ columns sample_layout ≤ maxPatches sample_layout ∧
  Z.of_nat (base.size patches) ≤ rows sample_layout
    ≤ sumZ (len <$> values patches).
Proof.
  destruct (grid_holds_every_patch ceil_cbrt getsize ceil_cbrt_pos
              grouping patches sample_layout sample_extract sample_plan)
    as (Hcolumns & _ & _ & Hrows).
  exact (conj Hcolumns Hrows).
Defined.

Lemma cells_fit_the_names_witness :
  patchPadding sample_layout = (getsize "   ").1 ∧
  0 ≤ patchWidth sample_layout ∧ 0 ≤ patchHeight sample_layout ∧
  ∃ t, is_Some (patches !! t) ∧
    (getsize t).1 + 2 * patchPadding sample_layout =
    firstColumnWidth sample_layout.
Proof.
  destruct (cells_fit_the_names ceil_cbrt getsize patches sample_layout
              sample_plan)
    as (Hpadding & Hwidth & Hheight & _ & _ & Hfirst).
  exact (conj Hpadding (conj Hwidth (conj Hheight Hfirst))).
Defined.

Lemma every_patch_is_drawn_once_witness :
  Forall2 (λ p rgb, getrgb (biomeColor p) = Ok rgb)
    (all_patches patches) (patch_inks (drawn sample_image)) ∧
  length (patch_inks (drawn sample_image)) = length (all_patches patches).
Proof.
  exact (every_patch_is_drawn_once ceil_cbrt getsize getsize getrgb
           ceil_cbrt_pos grouping patches sample_layout sample_image
           sample_extract sample_plan sample_render).
Defined.

Lemma render_completes_iff_witness :
  is_Ok (render getsize getsize getrgb sample_layout patches) ↔
  Forall (λ p, is_Ok (getrgb (biomeColor p))) (all_patches patches).
Proof.
  exact (proj1 (render_completes_iff ceil_cbrt getsize getsize getrgb
                  ceil_cbrt_pos grouping patches sample_layout
                  sample_extract sample_plan)).
Defined.

Lemma one_label_per_row_witness :
  label_tops (drawn sample_image) =
  (λ j, j * patchHeight sample_layout) <$> seqZ 0 (rows sample_layout).
Proof.
  exact (one_label_per_row ceil_cbrt getsize getsize getrgb ceil_cbrt_pos
           grouping patches sample_layout sample_image
           sample_extract sample_plan sample_render).
Defined.


Lemma image_shows_every_patch_witness :
  view_of <$> drawn sample_image = image_view getrgb sample_layout patches.
Proof.
  exact (image_shows_every_patch ceil_cbrt getsize getsize getrgb
           ceil_cbrt_pos grouping patches sample_layout sample_image
           sample_extract sample_plan sample_render).
Defined.


Lemma baseName_of_path_witness :
  baseName {| biomeFileName :=
                "world/settings/biomes/forests" +:+ "/" +:+ String "O" "ak"
                  +:+ "." +:+ "json";
              contents := contents oak |} = String "O" "ak".
Proof.
  apply (baseName_of_path "world/settings/biomes/forests" "O" "ak" "json"
           (contents oak)).
  - reflexivity.
  - discriminate.
  - reflexivity.
  - reflexivity.
Defined.

End SamplesMore.
